(** * GETdns: batch DNS resolution with an IP frequency report

    A shallow embedding of [GETdns.py] and the properties of its URL
    normaliser, resolver client, worker pool and report writer.

    Python [str] values are modelled as [string] (the UTF-8 bytes of the
    text), Python [int] as [Z], the [Counter] as an association list in
    insertion order (the order of [dict.items()]), and the thread pool as a
    transition system over worker program counters, one transition per
    access to the shared counter, lock or console. *)

From Stdlib Require Import ZArith Ascii String List Sorted Permutation Lia DecimalString.
From stdpp Require Import base relations list strings.

Local Open Scope Z_scope.

(** ** Regular expressions: the fragment of [re] used by [clean_url] *)

Module Re.

Inductive regex : Type :=
| Eps                       (* the empty pattern *)
| Bol                       (* ^   start of the subject (no MULTILINE flag) *)
| Lit (c : ascii)           (* a literal character *)
| Opt (r : regex)           (* r?  greedy: tries r first, then the empty match *)
| Cat (r1 r2 : regex).      (* r1 r2 *)

(** Backtracking matcher.  [at_start] tells whether the current position
    is position 0 of the subject; [k] is the continuation that matches the
    rest of the pattern and receives the unconsumed suffix. *)
Fixpoint rmatch {A} (r : regex) (at_start : bool) (s : string)
         (k : bool → string → option A) : option A :=
  match r with
  | Eps => k at_start s
  | Bol => if at_start then k at_start s else None
  | Lit c =>
      match s with
      | String c' s' => if Ascii.eqb c c' then k false s' else None
      | EmptyString => None
      end
  | Opt r1 =>
      match rmatch r1 at_start s k with
      | Some x => Some x
      | None => k at_start s
      end
  | Cat r1 r2 => rmatch r1 at_start s (λ b s', rmatch r2 b s' k)
  end.

(** [match_at r at_start s] is the suffix left after the leftmost-first
    match of [r] starting at the head of [s], if there is one. *)
Definition match_at (r : regex) (at_start : bool) (s : string) : option string :=
  rmatch r at_start s (λ _ rest, Some rest).

(** The literal string [s] followed by [r]. *)
Fixpoint lits (s : string) (r : regex) : regex :=
  match s with
  | EmptyString => r
  | String c s' => Cat (Lit c) (lits s' r)
  end.

(** [re.sub(pattern, repl, subject)] with a literal replacement: scan the
    subject from left to right, replace every non-overlapping match and
    copy the characters in between.  After an empty match one character
    is copied, so the scan always advances. *)
Fixpoint sub_from (fuel : nat) (r : regex) (repl : string)
         (at_start : bool) (s : string) : string :=
  match fuel with
  | O => s
  | S fuel' =>
      match match_at r at_start s with
      | Some rest =>
          if (String.length rest <? String.length s)%nat
          then repl +:+ sub_from fuel' r repl false rest
          else match s with
               | EmptyString => repl
               | String c s' => repl +:+ String c (sub_from fuel' r repl false s')
               end
      | None =>
          match s with
          | EmptyString => EmptyString
          | String c s' => String c (sub_from fuel' r repl false s')
          end
      end
  end.

Definition sub (r : regex) (repl : string) (s : string) : string :=
  sub_from (S (String.length s)) r repl true s.

End Re.

(** ** URL normaliser *)

(** The pattern [r'^https?://']. *)
Definition scheme_pattern : Re.regex :=
  Re.Cat Re.Bol (Re.lits "http" (Re.Cat (Re.Opt (Re.Lit "s")) (Re.lits "://" Re.Eps))).

(** [def clean_url(url): return re.sub(r'^https?://', '', url)] *)
Definition clean_url (url : string) : string :=
  Re.sub scheme_pattern EmptyString url.

(** ** Resolver client *)

Inductive rdtype : Type := A | AAAA.

(** Failures of [dns.resolver.resolve]; all of them are subclasses of
    [Exception]. *)
Inductive dns_error : Type :=
| NoAnswer                      (* dns.resolver.NoAnswer *)
| NXDOMAIN                      (* dns.resolver.NXDOMAIN *)
| LifetimeTimeout               (* dns.resolver.LifetimeTimeout *)
| NoNameservers                 (* dns.resolver.NoNameservers: server failure *)
| NetworkError (msg : string).  (* any other exception of the lookup *)

Inductive dns_reply : Type :=
| Answers (rdata : list string)   (* the texts [rdata.to_text()] of the answer *)
| Fails (e : dns_error).

(** The DNS library as seen by one call of [query_dns]:
    [resolve domain rd lifetime attempt] is the outcome of
    [dns.resolver.resolve(domain, rd, lifetime=lifetime)] issued in
    iteration [attempt] of the retry loop. *)
Definition resolver : Type := string → rdtype → Z → nat → dns_reply.

(** What one call of [query_dns] does to the outside world, in order. *)
Inductive event : Type :=
| Lookup (domain : string) (rd : rdtype) (lifetime : Z)
| Sleep (delay : Z).

Definition is_NoAnswer (e : dns_error) : bool :=
  match e with NoAnswer => true | _ => false end.

(** The body of [for attempt in range(retries)], with [remaining] iterations
    left; the result is the returned list and the events in order. *)
Fixpoint query_dns_loop (resolve : resolver) (domain : string) (delay : Z)
         (attempt remaining : nat) : list string * list event :=
  match remaining with
  | O => ([], [])                                            (* return [] *)
  | S remaining' =>
      match resolve domain A 10 attempt with
      | Answers rdata => (rdata, [Lookup domain A 10])
      | Fails e =>
          if is_NoAnswer e then
            match resolve domain AAAA 10 attempt with
            | Answers rdata => (rdata, [Lookup domain A 10; Lookup domain AAAA 10])
            | Fails _ => ([], [Lookup domain A 10; Lookup domain AAAA 10])
            end
          else
            let '(r, t) := query_dns_loop resolve domain delay (S attempt) remaining' in
            (r, Lookup domain A 10 :: Sleep delay :: t)      (* time.sleep(delay) *)
      end
  end.

(** [def query_dns(domain, retries=5, delay=2)] *)
Definition query_dns (resolve : resolver) (domain : string) (retries delay : Z)
  : list string * list event :=
  query_dns_loop resolve domain delay 0 (Z.to_nat retries).

Definition sleep_of (e : event) : Z :=
  match e with Sleep d => d | Lookup _ _ _ => 0 end.

Definition total_sleep (t : list event) : Z := fold_right Z.add 0 (map sleep_of t).

Definition is_lookup (rd : rdtype) (e : event) : bool :=
  match e, rd with
  | Lookup _ A _, A | Lookup _ AAAA _, AAAA => true
  | _, _ => false
  end.

Definition lookups (rd : rdtype) (t : list event) : nat :=
  length (List.filter (is_lookup rd) t).

(** The A lookup of iteration [attempt] raises something other than
    [NoAnswer]: the branch [except Exception] is taken. *)
Definition retriable (resolve : resolver) (domain : string) (attempt : nat) : Prop :=
  ∃ e, resolve domain A 10 attempt = Fails e ∧ e ≠ NoAnswer.

(** The events of one failed iteration: the lookup, then the sleep. *)
Definition failed_attempt (domain : string) (delay : Z) : list event :=
  [Lookup domain A 10; Sleep delay].

(** Sample resolvers: every lookup times out; the name has AAAA records
    only; the first lookup times out and the name then has no record. *)
Definition always_timeout : resolver := λ _ _ _ _, Fails LifetimeTimeout.

Definition ipv6_only : resolver :=
  λ _ rd _ _, match rd with A => Fails NoAnswer | AAAA => Answers ["2001:db8::1"] end.

Definition flaky_then_empty : resolver :=
  λ _ rd _ attempt,
    match rd, attempt with
    | A, O => Fails LifetimeTimeout
    | A, _ => Fails NoAnswer
    | AAAA, _ => Fails NXDOMAIN
    end.

(** ** Frequency aggregator *)

(** [collections.Counter]: the items in insertion order, keys unique. *)
Definition Counter : Type := list (string * Z).

(** [c[ip]]: a missing key reads as 0 and is not inserted. *)
Fixpoint counter_get (c : Counter) (ip : string) : Z :=
  match c with
  | [] => 0
  | (k, v) :: c' => if String.eqb k ip then v else counter_get c' ip
  end.

(** [c[ip] = v]: an existing key keeps its position, a new key goes last. *)
Fixpoint counter_set (c : Counter) (ip : string) (v : Z) : Counter :=
  match c with
  | [] => [(ip, v)]
  | (k, v0) :: c' =>
      if String.eqb k ip then (k, v) :: c' else (k, v0) :: counter_set c' ip v
  end.

Definition counter_total (c : Counter) : Z := fold_right Z.add 0 (map snd c).

(** ** One task *)

(** [f"域名: {domain} | A 记录: {ip}"] *)
Definition log_line (domain ip : string) : string :=
  "域名: " +:+ domain +:+ " | A 记录: " +:+ ip.

(** The loop of [process_url] run without interruption (the lock is held):
    [for ip in a_records: output_counter[ip] += 1; print(...)]. *)
Fixpoint record_all (domain : string) (a_records : list string)
         (c : Counter) (out : list string) : Counter * list string :=
  match a_records with
  | [] => (c, out)
  | ip :: rest =>
      record_all domain rest (counter_set c ip (counter_get c ip + 1))
                 (out ++ [log_line domain ip])
  end.

(** [def process_url(url, output_counter, lock)], run on its own.  Nothing
    in its body raises in this model, so the handler [except Exception: pass]
    is never entered. *)
Definition process_url (resolve : resolver) (url : string)
           (c : Counter) (out : list string) : Counter * list string :=
  let domain := clean_url url in
  let a_records := (query_dns resolve domain 5 2).1 in
  match a_records with
  | [] => (c, out)
  | _ => record_all domain a_records c out
  end.

(** ** Worker pool *)

(** Where a worker thread stands.  The read and the write of
    [output_counter[ip] += 1] are separate steps. *)
Inductive pc : Type :=
| Idle                                                   (* waiting for a work item *)
| Resolving (tid : nat) (url : string)                     (* lines 38-39 *)
| Acquire (domain : string) (a_records : list string)      (* line 42: lock.acquire() *)
| Loop (domain : string) (todo : list string)              (* line 43, lock held *)
| Incr (domain ip : string) (v : Z) (todo : list string)   (* line 44, value read *)
| Emit (domain ip : string) (todo : list string).         (* line 45 *)

Record pool : Type := mkPool {
  p_queue : list (nat * string);   (* submitted work items, first in first out *)
  p_workers : list pc;             (* the worker threads of the executor *)
  p_locked : bool;                 (* threading.Lock *)
  p_counter : Counter;             (* output_counter, shared *)
  p_console : list string          (* standard output, one line per element *)
}.

Definition set_worker (i : nat) (w : pc) (s : pool) : pool :=
  mkPool (p_queue s) (<[i := w]> (p_workers s)) (p_locked s) (p_counter s) (p_console s).

Section Pool.

(** [dns tid] is the DNS library as seen by the task submitted at
    position [tid]. *)
Variable dns : nat → resolver.

Definition result_of (tid : nat) (url : string) : list string :=
  (query_dns (dns tid) (clean_url url) 5 2).1.

(** One step of worker [i], if it can take one. *)
Definition step_worker (i : nat) (s : pool) : option pool :=
  match p_workers s !! i with
  | None => None
  | Some Idle =>
      match p_queue s with
      | [] => None
      | (tid, url) :: q =>
          Some (mkPool q (<[i := Resolving tid url]> (p_workers s))
                       (p_locked s) (p_counter s) (p_console s))
      end
  | Some (Resolving tid url) =>
      match result_of tid url with
      | [] => Some (set_worker i Idle s)                 (* if a_records: is false *)
      | a_records => Some (set_worker i (Acquire (clean_url url) a_records) s)
      end
  | Some (Acquire domain a_records) =>
      if p_locked s then None
      else Some (mkPool (p_queue s) (<[i := Loop domain a_records]> (p_workers s))
                        true (p_counter s) (p_console s))
  | Some (Loop domain []) =>                              (* lock.release() *)
      Some (mkPool (p_queue s) (<[i := Idle]> (p_workers s))
                   false (p_counter s) (p_console s))
  | Some (Loop domain (ip :: todo)) =>
      Some (set_worker i (Incr domain ip (counter_get (p_counter s) ip) todo) s)
  | Some (Incr domain ip v todo) =>
      Some (mkPool (p_queue s) (<[i := Emit domain ip todo]> (p_workers s))
                   (p_locked s) (counter_set (p_counter s) ip (v + 1)) (p_console s))
  | Some (Emit domain ip todo) =>
      Some (mkPool (p_queue s) (<[i := Loop domain todo]> (p_workers s))
                   (p_locked s) (p_counter s) (p_console s ++ [log_line domain ip]))
  end.

Definition step (s s' : pool) : Prop := ∃ i, step_worker i s = Some s'.

(** Any number of steps, in any interleaving. *)
Definition steps : pool → pool → Prop := rtc step.

Definition is_idle (w : pc) : bool := match w with Idle => true | _ => false end.

(** Every submitted task has run to its end. *)
Definition finished (s : pool) : bool :=
  match p_queue s with [] => forallb is_idle (p_workers s) | _ => false end.

(** The number of steps a task still has to take. *)
Definition pc_weight (w : pc) : nat :=
  match w with
  | Idle => 0
  | Resolving tid url => 3 * length (result_of tid url) + 3
  | Acquire _ a_records => 3 * length a_records + 2
  | Loop _ todo => 3 * length todo + 1
  | Incr _ _ _ todo => 3 * length todo + 3
  | Emit _ _ todo => 3 * length todo + 2
  end.

Definition item_weight (it : nat * string) : nat :=
  3 * length (result_of it.1 it.2) + 4.

Definition pool_weight (s : pool) : nat :=
  sum_list (map item_weight (p_queue s)) + sum_list (map pc_weight (p_workers s)).

(** The scheduler's choices: worker [i] takes a step when it can. *)
Fixpoint run_schedule (schedule : list nat) (s : pool) : pool :=
  match schedule with
  | [] => s
  | i :: rest =>
      match step_worker i s with
      | Some s' => run_schedule rest s'
      | None => run_schedule rest s
      end
  end.

Fixpoint pick (candidates : list nat) (s : pool) : option pool :=
  match candidates with
  | [] => None
  | i :: rest =>
      match step_worker i s with
      | Some s' => Some s'
      | None => pick rest s
      end
  end.

(** Run the lowest-numbered worker that can step until none can. *)
Fixpoint drain (fuel : nat) (s : pool) : pool :=
  match fuel with
  | O => s
  | S fuel' =>
      match pick (seq 0 (length (p_workers s))) s with
      | Some s' => drain fuel' s'
      | None => s
      end
  end.

Definition number {X} (l : list X) : list (nat * X) := zip (seq 0 (length l)) l.

(** The executor after [executor.submit] was called for every URL. *)
Definition init_pool (max_workers : nat) (urls : list string)
           (c : Counter) (out : list string) : pool :=
  mkPool (number urls) (replicate max_workers Idle) false c out.

(** The worker is between [lock.acquire()] and [lock.release()]. *)
Definition in_critical (w : pc) : bool :=
  match w with
  | Loop _ _ | Incr _ _ _ _ | Emit _ _ _ => true
  | Idle | Resolving _ _ | Acquire _ _ => false
  end.

Definition critical_count (ws : list pc) : nat :=
  sum_list (map (λ w, if in_critical w then 1%nat else 0%nat) ws).

(** The addresses a worker has still to add to the counter. *)
Definition pending (w : pc) : list string :=
  match w with
  | Idle => []
  | Resolving tid url => result_of tid url
  | Acquire _ a_records => a_records
  | Loop _ todo => todo
  | Incr _ ip _ todo => ip :: todo
  | Emit _ _ todo => todo
  end.

Definition occurrences (ip : string) (l : list string) : nat :=
  length (List.filter (String.eqb ip) l).

(** How often [ip] is still to be counted by queued and running tasks. *)
Definition owed (ip : string) (s : pool) : nat :=
  sum_list (map (λ it, occurrences ip (result_of it.1 it.2)) (p_queue s)) +
  sum_list (map (λ w, occurrences ip (pending w)) (p_workers s)).

(** A worker that has read [output_counter[ip]] holds the current value. *)
Definition reads_current (c : Counter) (w : pc) : Prop :=
  match w with
  | Incr _ ip v _ => v = counter_get c ip
  | _ => True
  end.

(** What holds in every state a run passes through; [total ip] is the
    count [ip] has when all tasks are done. *)
Record pool_inv (total : string → Z) (s : pool) : Prop := mkInv {
  inv_total : ∀ ip, counter_get (p_counter s) ip + Z.of_nat (owed ip s) = total ip;
  inv_lock : critical_count (p_workers s) = if p_locked s then 1%nat else 0%nat;
  inv_read : Forall (reads_current (p_counter s)) (p_workers s);
  inv_keys : NoDup (map fst (p_counter s));
  inv_pos : Forall (λ e, 0 < e.2) (p_counter s)
}.

End Pool.

(** The console lines of one task: its domain with each of its addresses. *)
Definition block_lines (b : string * list string) : list string :=
  map (log_line b.1) b.2.

(** The domain and the addresses of a submitted task. *)
Definition block_of (dns : nat → resolver) (it : nat * string)
  : string * list string :=
  (clean_url it.2, result_of dns it.1 it.2).

(** The lines a worker inside the lock has still to print. *)
Definition rest_lines (w : pc) : list string :=
  match w with
  | Loop d todo => map (log_line d) todo
  | Incr d ip _ todo | Emit d ip todo => log_line d ip :: map (log_line d) todo
  | Idle | Resolving _ _ | Acquire _ _ => []
  end.

(** The task a worker runs, as long as the worker has not taken the lock. *)
Definition uncommitted (dns : nat → resolver) (w : pc) : list (string * list string) :=
  match w with
  | Resolving tid url => [block_of dns (tid, url)]
  | Acquire d a_records => [(d, a_records)]
  | Idle | Loop _ _ | Incr _ _ _ _ | Emit _ _ _ => []
  end.

(** After the lines [out0] printed before, the console holds whole blocks:
    [done] are the tasks that took the lock or ended without an address,
    in that order; the worker inside the lock, if any, is printing the
    last block of [done]. *)
Definition console_inv (dns : nat → resolver) (out0 : list string)
           (tasks : list (string * list string)) (s : pool) : Prop :=
  ∃ done : list (string * list string),
    (p_locked s = false → p_console s = out0 ++ concat (map block_lines done)) ∧
    (∀ i w, p_workers s !! i = Some w → in_critical w = true →
            p_console s ++ rest_lines w = out0 ++ concat (map block_lines done)) ∧
    done ++ map (block_of dns) (p_queue s) ++
      concat (map (uncommitted dns) (p_workers s)) ≡ₚ tasks.

(** The tasks run one after the other, in the order of submission. *)
Definition run_sequentially (dns : nat → resolver) (items : list (nat * string))
           (st : Counter * list string) : Counter * list string :=
  fold_left (λ st it, process_url (dns it.1) it.2 st.1 st.2) items st.

(** The addresses all tasks resolve to, in the order of submission. *)
Definition all_results (dns : nat → resolver) (urls : list string) : list string :=
  concat (map (λ it, result_of dns it.1 it.2) (number urls)).

(** The task for [urls !! i] resolves to the single address [ips !! i]. *)
Definition resolves_to (dns : nat → resolver) (urls ips : list string) : Prop :=
  Forall2 (λ it ip, result_of dns it.1 it.2 = [ip]) (number urls) ips.

(** Sample: three names, each with an address of its own. *)
Definition three_hosts : nat → resolver :=
  λ _ domain _ _ _,
    if String.eqb domain "a.example" then Answers ["192.0.2.1"]
    else if String.eqb domain "b.example" then Answers ["192.0.2.2"]
    else Answers ["192.0.2.3"].

(** ** Exceptions outside the resolver *)

Inductive exn : Type :=
| ValueError (msg : string)
| OSError (msg : string).

(** [str(e)] *)
Definition exn_text (e : exn) : string :=
  match e with ValueError msg | OSError msg => msg end.

Inductive result (X : Type) : Type :=
| Ok (x : X)
| Raise (e : exn).
Arguments Ok {X} x.
Arguments Raise {X} e.

(** [ThreadPoolExecutor(max_workers)]: the constructor refuses a pool
    without workers. *)
Definition ThreadPoolExecutor (max_workers : Z) : result nat :=
  if max_workers <=? 0 then Raise (ValueError "max_workers must be greater than 0")
  else Ok (Z.to_nat max_workers).

(** [def process_urls_concurrently(urls, max_threads, output_counter)].
    The interleaving of the workers is the [schedule]; whatever it leaves
    undone is run to the end, as the [with] block waits for all tasks.
    No task raises, so [future.result()] never does. *)
Definition process_urls_concurrently (dns : nat → resolver) (schedule : list nat)
           (urls : list string) (max_threads : Z)
           (output_counter : Counter) (out : list string)
  : result (Counter * list string) :=
  let max_threads := Z.min max_threads (Z.of_nat (length urls)) in
  match ThreadPoolExecutor max_threads with
  | Raise e => Raise e
  | Ok workers =>
      let s0 := init_pool workers urls output_counter out in
      let s1 := run_schedule dns schedule s0 in
      let s2 := drain dns (pool_weight dns s1) s1 in
      Ok (p_counter s2, p_console s2)
  end.

(** The number of workers that are running a task. *)
Definition active (s : pool) : nat :=
  length (List.filter (λ w, negb (is_idle w)) (p_workers s)).

(** The concurrency the specification asks for:
    [max(1, min(configured_max, domain_count))]. *)
Definition spec_concurrency (configured_max : Z) (domain_count : nat) : Z :=
  Z.max 1 (Z.min configured_max (Z.of_nat domain_count)).

(** ** Report writer *)

(** [sorted(items, key=lambda x: x[1], reverse=True)]: a stable sort by
    count, largest first; items with equal counts keep their order. *)
Fixpoint insert_desc (x : string * Z) (l : list (string * Z)) : list (string * Z) :=
  match l with
  | [] => [x]
  | y :: l' => if x.2 <? y.2 then y :: insert_desc x l' else x :: y :: l'
  end.

Fixpoint sorted_desc (l : list (string * Z)) : list (string * Z) :=
  match l with
  | [] => []
  | x :: l' => insert_desc x (sorted_desc l')
  end.

(** [str(count)] *)
Definition str_of_int (n : Z) : string := NilZero.string_of_int (Z.to_int n).

Definition newline : string := String (ascii_of_nat 10) EmptyString.

(** [f"地址：{ip} | 数量：{count}\n"] *)
Definition format_line (e : string * Z) : string :=
  "地址：" +:+ e.1 +:+ " | 数量：" +:+ str_of_int e.2 +:+ newline.

(** The loop over [sorted_ips]; [written] is what [f.write] has put in the
    file so far. *)
Fixpoint write_entries (sorted_ips : list (string * Z)) (written : string) : string :=
  match sorted_ips with
  | [] => written
  | (ip, count) :: rest =>
      if 2 <? count then write_entries rest (written +:+ format_line (ip, count))
      else write_entries rest written
  end.

(** The entries that reach the file, in the order they are written. *)
Definition report_entries (output_counter : Counter) : list (string * Z) :=
  List.filter (λ e, 2 <? e.2) (sorted_desc output_counter).

(** The text of a file that holds the lines of [entries]. *)
Definition file_text (entries : list (string * Z)) : string :=
  fold_right (λ e text, format_line e +:+ text) EmptyString entries.

(** [e1] may stand before [e2] in the report. *)
Definition count_ge (e1 e2 : string * Z) : Prop := e2.2 ≤ e1.2.

(** The operating system as the program sees it.  Each call is made at most
    once in a run, so its outcome is a function of its argument. *)
Record os_env : Type := mkOs {
  read_urls : string → exn + list string;
      (* open(path, 'r') and [line.strip() for line in f.readlines()] *)
  path_exists : string → bool;           (* os.path.exists *)
  makedirs : string → option exn;        (* os.makedirs; None: created *)
  open_w : string → option exn;          (* open(path, 'w'); None: opened *)
  elapsed : string                       (* f"{time.time() - start_time:.2f}" *)
}.

Record world : Type := mkWorld {
  files : string → option string;        (* the content of each existing file *)
  stdout : list string                   (* one element per print *)
}.

Definition print (line : string) (w : world) : world :=
  mkWorld (files w) (stdout w ++ [line]).

Definition store_file (path content : string) (w : world) : world :=
  mkWorld (λ p, if String.eqb p path then Some content else files w p) (stdout w).

Definition slash : ascii := "/"%char.

(** [p[:p.rfind('/') + 1]], or [None] when [p] has no slash. *)
Fixpoint dir_prefix (p : string) : option string :=
  match p with
  | EmptyString => None
  | String c p' =>
      match dir_prefix p' with
      | Some h => Some (String c h)
      | None => if Ascii.eqb c slash then Some (String c EmptyString) else None
      end
  end.

(** [head.rstrip('/')] *)
Fixpoint rstrip_slash (s : string) : string :=
  match s with
  | EmptyString => EmptyString
  | String c s' =>
      match rstrip_slash s' with
      | EmptyString => if Ascii.eqb c slash then EmptyString else String c EmptyString
      | r => String c r
      end
  end.

(** [os.path.dirname] of [posixpath]: the head up to the last slash, without
    its trailing slashes unless it consists of slashes only. *)
Definition dirname (p : string) : string :=
  let head := default EmptyString (dir_prefix p) in
  match rstrip_slash head with
  | EmptyString => head
  | h => h
  end.

Definition nonempty (s : string) : bool :=
  match s with EmptyString => false | _ => true end.

(** [def ensure_directory_exists(file_path)]; the result is the exception
    that escapes, if any. *)
Definition ensure_directory_exists (os : os_env) (file_path : string) : option exn :=
  let directory := dirname file_path in
  if nonempty directory && negb (path_exists os directory)
  then makedirs os directory
  else None.

(** [def write_sorted_output(output_counter, output_file)].  Opening with
    mode ['w'] creates or truncates the file; a failure to open is caught by
    [except Exception as e] and printed.  Writing to the opened file is
    taken to succeed. *)
Definition write_sorted_output (os : os_env) (output_counter : Counter)
           (output_file : string) (w : world) : world :=
  let sorted_ips := sorted_desc output_counter in
  match open_w os output_file with
  | Some e => print ("写入文件失败: " +:+ exn_text e) w
  | None => store_file output_file (write_entries sorted_ips EmptyString) w
  end.

(** ** The program *)

Record args : Type := mkArgs {
  arg_file : string;      (* -f / --file *)
  arg_output : string;    (* -o / --output *)
  arg_threads : Z         (* -t / --threads, default 100 *)
}.

(** How the process ends. *)
Inductive ending : Type :=
| Completed                (* main() returned *)
| Exited (code : Z)        (* sys.exit(code) *)
| Uncaught (e : exn).      (* an exception left main() *)

(** [def main()] after the arguments are parsed. *)
Definition main (os : os_env) (dns : nat → resolver) (schedule : list nat)
           (a : args) (w : world) : ending * world :=
  match read_urls os (arg_file a) with
  | inl e => (Exited 1, print ("读取文件失败: " +:+ exn_text e) w)
  | inr urls =>
      match ensure_directory_exists os (arg_output a) with
      | Some e => (Uncaught e, w)
      | None =>
          let output_counter := [] in
          match process_urls_concurrently dns schedule urls (arg_threads a)
                                          output_counter (stdout w) with
          | Raise e => (Uncaught e, w)
          | Ok (output_counter, out) =>
              let w := mkWorld (files w) out in
              let w := write_sorted_output os output_counter (arg_output a) w in
              let w := print (newline +:+ "任务已完成！") w in
              let w := print ("结果已保存到 " +:+ arg_output a) w in
              let w := print ("总共耗时: " +:+ elapsed os +:+ " 秒") w in
              (Completed, w)
          end
      end
  end.

(** The three lines printed when a run reaches its end. *)
Definition completion_messages (os : os_env) (a : args) : list string :=
  [newline +:+ "任务已完成！"; "结果已保存到 " +:+ arg_output a;
   "总共耗时: " +:+ elapsed os +:+ " 秒"].

(** ** Sample inputs *)


Definition three_urls : list string :=
  ["http://a.example"; "https://b.example"; "c.example"].

Definition three_ips : list string := ["192.0.2.1"; "192.0.2.2"; "192.0.2.3"].

(** No directory exists yet, [urls] are the lines of
    the input file, [mk] and [op] are the failures of [os.makedirs] and of
    opening the output file. *)
Definition sample_os (urls : list string) (mk op : option exn) : os_env :=
  mkOs (λ _, inr urls) (λ _, false) (λ _, mk) (λ _, op) "0.01".

Definition sample_args : args := mkArgs "urls.txt" "out/report.txt" 100.

Definition fresh_world : world := mkWorld (λ _, None) [].

Definition old_report_world : world :=
  mkWorld (λ p, if String.eqb p "out/report.txt" then Some "stale" else None) [].

Definition sample_counter : Counter :=
  [("10.0.0.1", 2); ("10.0.0.2", 3); ("10.0.0.3", 7); ("10.0.0.4", 0)].

Definition tied_counter : Counter :=
  [("10.0.0.1", 3); ("10.0.0.2", 9); ("10.0.0.3", 3); ("10.0.0.4", 5)].

Definition permission_denied : exn := OSError "[Errno 13] Permission denied".

(** * Properties *)

(** ** URL normaliser *)

Lemma string_length_app (s1 s2 : string) :
  String.length (s1 +:+ s2) = (String.length s1 + String.length s2)%nat.
Proof.
  induction s1 as [|c s1 IH]; [reflexivity|].
  change (String c s1 +:+ s2) with (String c (s1 +:+ s2)).
  cbn [String.length]. by rewrite IH.
Qed.

Section CleanUrl.

(** A pattern anchored with [^] matches nowhere but at position 0. *)
Lemma scheme_pattern_anchored (s : string) :
  Re.match_at scheme_pattern false s = None.
Proof. reflexivity. Qed.

Lemma sub_from_after_start (fuel : nat) (s : string) :
  Re.sub_from fuel scheme_pattern EmptyString false s = s.
Proof.
  revert s; induction fuel as [|fuel IH]; intros s; [reflexivity|].
  cbn [Re.sub_from]. rewrite scheme_pattern_anchored.
  destruct s as [|c s]; [reflexivity|]. by rewrite IH.
Qed.

Lemma match_http (rest : string) :
  Re.match_at scheme_pattern true ("http://" +:+ rest) = Some rest.
Proof. reflexivity. Qed.

Lemma match_https (rest : string) :
  Re.match_at scheme_pattern true ("https://" +:+ rest) = Some rest.
Proof. reflexivity. Qed.

Ltac next_char url :=
  destruct url as [|?c url]; [reflexivity|];
  cbn [Re.rmatch];
  match goal with
  | |- context [Ascii.eqb ?a ?c] =>
      destruct (Ascii.eqb_spec a c) as [<-|?]; [|try reflexivity]
  end.

Lemma match_scheme_none (url : string) :
  String.prefix "http://" url = false →
  String.prefix "https://" url = false →
  Re.match_at scheme_pattern true url = None.
Proof.
  intros H1 H2.
  unfold Re.match_at, scheme_pattern. cbn [Re.rmatch Re.lits].
  do 4 next_char url.
  destruct url as [|c url]; [reflexivity|].
  cbn [Re.rmatch].
  destruct (Ascii.eqb_spec "s" c) as [<-|Hs].
  - do 3 next_char url. cbn in H2. by destruct url.
  - destruct (Ascii.eqb_spec ":" c) as [<-|?]; [|reflexivity].
    do 2 next_char url. cbn in H1. by destruct url.
Qed.

Lemma clean_url_unmatched (url : string) :
  Re.match_at scheme_pattern true url = None → clean_url url = url.
Proof.
  intros H. unfold clean_url, Re.sub. cbn [Re.sub_from]. rewrite H.
  destruct url as [|c url]; [reflexivity|]. by rewrite sub_from_after_start.
Qed.

Lemma clean_url_matched (url rest : string) :
  Re.match_at scheme_pattern true url = Some rest →
  (String.length rest < String.length url)%nat →
  clean_url url = rest.
Proof.
  intros H Hlen. unfold clean_url, Re.sub. cbn [Re.sub_from]. rewrite H.
  apply Nat.ltb_lt in Hlen. rewrite Hlen. by rewrite sub_from_after_start.
Qed.

(** C6. [clean_url] removes one leading [http://] or [https://] and
    nothing else: a second scheme behind the first stays, and a line that
    does not start with one of the two (lower-case) schemes is returned
    as it is.  The function is total. *)
Theorem clean_url_strips_one_scheme :
  (∀ rest, clean_url ("http://" +:+ rest) = rest) ∧
  (∀ rest, clean_url ("https://" +:+ rest) = rest) ∧
  (∀ url, String.prefix "http://" url = false →
          String.prefix "https://" url = false →
          clean_url url = url).
Proof.
  split; [|split].
  - intros rest. apply clean_url_matched; [apply match_http|].
    rewrite string_length_app. cbn. lia.
  - intros rest. apply clean_url_matched; [apply match_https|].
    rewrite string_length_app. cbn. lia.
  - intros url H1 H2. by apply clean_url_unmatched, match_scheme_none.
Qed.

Lemma clean_url_strips_one_scheme_witness :
  String.prefix "http://" "HTTP://Example.com" = false ∧
  String.prefix "https://" "HTTP://Example.com" = false ∧
  clean_url "HTTP://Example.com" = "HTTP://Example.com".
Proof.
  split; [reflexivity|]. split; [reflexivity|].
  apply (proj2 (proj2 clean_url_strips_one_scheme)); reflexivity.
Defined.

Example clean_url_plain : clean_url "example.com" = "example.com".
Proof. reflexivity. Qed.

Example clean_url_keeps_second_scheme : clean_url "https://http://a.b" = "http://a.b".
Proof. reflexivity. Qed.

Example clean_url_anchored : clean_url " http://a.b" = " http://a.b".
Proof. reflexivity. Qed.

Example clean_url_exact : clean_url "https:/a.b" = "https:/a.b".
Proof. reflexivity. Qed.

End CleanUrl.

(** ** Resolver client *)

Section Resolver.

Variable resolve : resolver.
Variable domain : string.

Lemma is_NoAnswer_false (e : dns_error) : e ≠ NoAnswer → is_NoAnswer e = false.
Proof. by destruct e. Qed.

Lemma query_dns_loop_retriable (delay : Z) (remaining k attempt : nat) :
  (k ≤ remaining)%nat →
  (∀ j, (attempt ≤ j < attempt + k)%nat → retriable resolve domain j) →
  query_dns_loop resolve domain delay attempt remaining =
    let rt := query_dns_loop resolve domain delay (attempt + k) (remaining - k) in
    (rt.1, concat (replicate k (failed_attempt domain delay)) ++ rt.2).
Proof.
  revert remaining attempt; induction k as [|k IH]; intros remaining attempt Hk Hfail.
  - rewrite Nat.add_0_r, Nat.sub_0_r. cbn. by destruct query_dns_loop.
  - destruct remaining as [|remaining]; [lia|].
    destruct (Hfail attempt) as (e & He & Hne); [lia|].
    cbn [query_dns_loop]. rewrite He, (is_NoAnswer_false _ Hne).
    rewrite (IH remaining (S attempt)); [|lia|intros j Hj; apply Hfail; lia].
    replace (S attempt + k)%nat with (attempt + S k)%nat by lia.
    replace (S remaining - S k)%nat with (remaining - k)%nat by lia.
    by destruct query_dns_loop.
Qed.

Lemma total_sleep_app (t1 t2 : list event) :
  total_sleep (t1 ++ t2) = total_sleep t1 + total_sleep t2.
Proof.
  unfold total_sleep. induction t1 as [|e t1 IH]; cbn in *; lia.
Qed.

Lemma total_sleep_failed (delay : Z) (k : nat) :
  total_sleep (concat (replicate k (failed_attempt domain delay))) = Z.of_nat k * delay.
Proof.
  induction k as [|k IH]; [reflexivity|].
  cbn [replicate concat]. rewrite total_sleep_app, IH.
  unfold total_sleep; cbn. lia.
Qed.

Lemma lookups_app (rd : rdtype) (t1 t2 : list event) :
  lookups rd (t1 ++ t2) = (lookups rd t1 + lookups rd t2)%nat.
Proof. unfold lookups. by rewrite List.filter_app, length_app. Qed.

Lemma lookups_failed (delay : Z) (k : nat) :
  lookups A (concat (replicate k (failed_attempt domain delay))) = k ∧
  lookups AAAA (concat (replicate k (failed_attempt domain delay))) = 0%nat.
Proof.
  induction k as [|k [IH1 IH2]]; [done|].
  cbn [replicate concat]. rewrite !lookups_app, IH1, IH2. done.
Qed.

Lemma query_dns_all_failed :
  (∀ attempt, (attempt < 5)%nat → retriable resolve domain attempt) →
  query_dns resolve domain 5 2 = ([], concat (replicate 5 (failed_attempt domain 2))).
Proof.
  intros Hfail. unfold query_dns.
  change (Z.to_nat 5) with 5%nat.
  rewrite (query_dns_loop_retriable 2 5 5 0); [|lia|intros j Hj; apply Hfail; lia].
  cbn [Nat.sub Nat.add query_dns_loop fst snd]. by rewrite app_nil_r.
Qed.

(** C3. When every A lookup fails with something other than "no answer",
    [query_dns] makes five A lookups and no AAAA lookup, sleeps 2 after a
    failed lookup before it tries again, and then returns the empty
    list; it returns a value, no failure of a lookup reaches the caller. *)
Theorem query_dns_retries_then_gives_up :
  (∀ attempt, (attempt < 5)%nat → retriable resolve domain attempt) →
  (query_dns resolve domain 5 2).1 = [] ∧
  (query_dns resolve domain 5 2).2 = concat (replicate 5 (failed_attempt domain 2)) ∧
  lookups A (query_dns resolve domain 5 2).2 = 5%nat ∧
  lookups AAAA (query_dns resolve domain 5 2).2 = 0%nat.
Proof.
  intros Hfail. rewrite (query_dns_all_failed Hfail). cbn [fst snd].
  repeat split; apply (lookups_failed 2 5).
Qed.

(** C4. When the A lookup of some iteration reports "no answer" (the
    earlier ones, if any, having failed otherwise), [query_dns] makes one
    AAAA lookup with the same lifetime right after it and returns: the
    AAAA answer if there is one, the empty list if that lookup fails in
    any way.  Nothing follows the AAAA lookup. *)
Theorem query_dns_no_answer_falls_back_once (k : nat) :
  (k < 5)%nat →
  (∀ j, (j < k)%nat → retriable resolve domain j) →
  resolve domain A 10 k = Fails NoAnswer →
  (query_dns resolve domain 5 2).1 =
    match resolve domain AAAA 10 k with
    | Answers rdata => rdata
    | Fails _ => []
    end ∧
  (query_dns resolve domain 5 2).2 =
    concat (replicate k (failed_attempt domain 2)) ++
    [Lookup domain A 10; Lookup domain AAAA 10] ∧
  lookups AAAA (query_dns resolve domain 5 2).2 = 1%nat.
Proof.
  intros Hk Hfail Hno. unfold query_dns.
  change (Z.to_nat 5) with 5%nat.
  rewrite (query_dns_loop_retriable 2 5 k 0); [|lia|intros j Hj; apply Hfail; lia].
  cbn [Nat.add fst snd].
  destruct (5 - k)%nat as [|n] eqn:E; [lia|].
  cbn [query_dns_loop]. rewrite Hno. cbn [is_NoAnswer].
  rewrite lookups_app, (proj2 (lookups_failed 2 k)).
  by destruct (resolve domain AAAA 10 k).
Qed.

End Resolver.

Lemma always_timeout_retriable (domain : string) (attempt : nat) :
  retriable always_timeout domain attempt.
Proof. by exists LifetimeTimeout. Qed.

Lemma query_dns_retries_then_gives_up_witness :
  (query_dns always_timeout "slow.example" 5 2).1 = [] ∧
  (query_dns always_timeout "slow.example" 5 2).2 =
    concat (replicate 5 (failed_attempt "slow.example" 2)) ∧
  lookups A (query_dns always_timeout "slow.example" 5 2).2 = 5%nat ∧
  lookups AAAA (query_dns always_timeout "slow.example" 5 2).2 = 0%nat.
Proof.
  apply (query_dns_retries_then_gives_up always_timeout "slow.example").
  intros attempt _. exists LifetimeTimeout. split; [reflexivity|discriminate].
Defined.

Lemma query_dns_no_answer_falls_back_once_witness :
  (query_dns flaky_then_empty "v6.example" 5 2).1 = [] ∧
  (query_dns flaky_then_empty "v6.example" 5 2).2 =
    [Lookup "v6.example" A 10; Sleep 2;
     Lookup "v6.example" A 10; Lookup "v6.example" AAAA 10] ∧
  lookups AAAA (query_dns flaky_then_empty "v6.example" 5 2).2 = 1%nat.
Proof.
  apply (query_dns_no_answer_falls_back_once flaky_then_empty "v6.example" 1).
  - lia.
  - intros j Hj. assert (j = 0%nat) as -> by lia.
    exists LifetimeTimeout. split; [reflexivity|discriminate].
  - reflexivity.
Defined.

Example query_dns_ipv6_only :
  query_dns ipv6_only "v6.example" 5 2 =
    (["2001:db8::1"], [Lookup "v6.example" A 10; Lookup "v6.example" AAAA 10]).
Proof. reflexivity. Qed.

(** A task whose resolution comes back empty touches neither the counter
    nor the console. *)
Lemma process_url_empty (resolve : resolver) (url : string)
      (c : Counter) (out : list string) :
  (query_dns resolve (clean_url url) 5 2).1 = [] →
  process_url resolve url c out = (c, out).
Proof. intros H. unfold process_url. by rewrite H. Qed.

(** C5. A domain whose five A lookups all fail otherwise than with "no
    answer" adds nothing to the counter and prints nothing, but the sleeps
    add up to 10: [query_dns] sleeps after the fifth failed lookup as
    well, where no further lookup follows. *)
Theorem failing_domain_sleeps_five_times (resolve : resolver) (url : string) :
  (∀ attempt, (attempt < 5)%nat → retriable resolve (clean_url url) attempt) →
  total_sleep (query_dns resolve (clean_url url) 5 2).2 = 10 ∧
  total_sleep (query_dns resolve (clean_url url) 5 2).2 ≠ 8 ∧
  ∀ c out, process_url resolve url c out = (c, out).
Proof.
  intros Hfail.
  pose proof (query_dns_all_failed resolve (clean_url url) Hfail) as Hq.
  rewrite Hq. cbn [snd]. rewrite total_sleep_failed. repeat split; [lia|].
  intros c out. apply process_url_empty. by rewrite Hq.
Qed.

Lemma failing_domain_sleeps_five_times_witness :
  total_sleep (query_dns always_timeout (clean_url "http://slow.example") 5 2).2 = 10 ∧
  total_sleep (query_dns always_timeout (clean_url "http://slow.example") 5 2).2 ≠ 8 ∧
  ∀ c out, process_url always_timeout "http://slow.example" c out = (c, out).
Proof.
  apply (failing_domain_sleeps_five_times always_timeout "http://slow.example").
  intros attempt _. exists LifetimeTimeout. split; [reflexivity|discriminate].
Defined.

(** ** Report writer *)

Lemma string_app_nil_r (s : string) : s +:+ EmptyString = s.
Proof.
  induction s as [|c s IH]; [reflexivity|].
  change (String c s +:+ EmptyString) with (String c (s +:+ EmptyString)). by rewrite IH.
Qed.

Lemma string_app_assoc (s1 s2 s3 : string) : (s1 +:+ s2) +:+ s3 = s1 +:+ s2 +:+ s3.
Proof.
  induction s1 as [|c s1 IH]; [reflexivity|].
  change ((String c s1 +:+ s2) +:+ s3) with (String c ((s1 +:+ s2) +:+ s3)).
  by rewrite IH.
Qed.

Lemma write_entries_file_text (l : list (string * Z)) (written : string) :
  write_entries l written = written +:+ file_text (List.filter (λ e, 2 <? e.2) l).
Proof.
  revert written; induction l as [|[ip count] l IH]; intros written.
  - cbn. by rewrite string_app_nil_r.
  - cbn [write_entries List.filter snd].
    destruct (2 <? count); rewrite IH; [|done].
    cbn [file_text fold_right]. by rewrite string_app_assoc.
Qed.

Lemma insert_desc_perm (x : string * Z) (l : list (string * Z)) :
  insert_desc x l ≡ₚ x :: l.
Proof.
  induction l as [|y l IH]; [done|].
  cbn [insert_desc]. destruct (x.2 <? y.2); [|done].
  rewrite IH. apply Permutation_swap.
Qed.

Lemma sorted_desc_perm (l : list (string * Z)) : sorted_desc l ≡ₚ l.
Proof.
  induction l as [|x l IH]; [done|].
  cbn [sorted_desc]. by rewrite insert_desc_perm, IH.
Qed.

Lemma insert_desc_sorted (x : string * Z) (l : list (string * Z)) :
  StronglySorted count_ge l → StronglySorted count_ge (insert_desc x l).
Proof.
  induction 1 as [|y l Hl IH Hy]; cbn [insert_desc].
  - repeat constructor.
  - destruct (Z.ltb_spec x.2 y.2) as [Hlt|Hge].
    + constructor; [done|].
      rewrite insert_desc_perm. constructor; [unfold count_ge; lia|done].
    + constructor; [by constructor|].
      constructor; [done|].
      eapply Forall_impl; [exact Hy|]. unfold count_ge. intros z Hz. lia.
Qed.

Lemma sorted_desc_sorted (l : list (string * Z)) :
  StronglySorted count_ge (sorted_desc l).
Proof.
  induction l as [|x l IH]; [constructor|]. by apply insert_desc_sorted.
Qed.

Lemma filter_sorted {X} (R : X → X → Prop) (f : X → bool) (l : list X) :
  StronglySorted R l → StronglySorted R (List.filter f l).
Proof.
  induction 1 as [|x l Hl IH Hx]; [constructor|].
  cbn [List.filter]. destruct (f x); [|done].
  constructor; [done|].
  apply List.Forall_forall. intros y Hy. apply List.filter_In in Hy as [Hy _].
  revert y Hy. by apply List.Forall_forall.
Qed.

Lemma sorted_lookup {X} (R : X → X → Prop) (l : list X) (i j : nat) (x y : X) :
  StronglySorted R l → (i < j)%nat → l !! i = Some x → l !! j = Some y → R x y.
Proof.
  intros Hl; revert i j; induction Hl as [|z l Hl IH Hz]; intros i j Hij Hi Hj.
  - done.
  - destruct j as [|j]; [lia|]. destruct i as [|i].
    + cbn in Hi, Hj. injection Hi as ->.
      rewrite Forall_forall in Hz. apply Hz. by eapply list_elem_of_lookup_2.
    + cbn in Hi, Hj. apply (IH i j); [lia|done..].
Qed.

Lemma report_entries_above (c : Counter) : Forall (λ e, 2 < e.2) (report_entries c).
Proof.
  apply List.Forall_forall. intros e He.
  apply List.filter_In in He as [_ He]. by apply Z.ltb_lt.
Qed.

Lemma write_sorted_output_opened (os : os_env) (c : Counter) (path : string) (w : world) :
  open_w os path = None →
  files (write_sorted_output os c path w) path = Some (file_text (report_entries c)) ∧
  stdout (write_sorted_output os c path w) = stdout w.
Proof.
  intros Hopen. unfold write_sorted_output. rewrite Hopen.
  cbn. rewrite String.eqb_refl, write_entries_file_text. done.
Qed.

Lemma write_sorted_output_refused (os : os_env) (c : Counter) (path : string)
      (w : world) (e : exn) :
  open_w os path = Some e →
  files (write_sorted_output os c path w) = files w ∧
  stdout (write_sorted_output os c path w) = stdout w ++ ["写入文件失败: " +:+ exn_text e].
Proof.
  intros Hopen. unfold write_sorted_output. by rewrite Hopen.
Qed.

(** C7. Whatever the counter holds, the file text handed to [f.write] is
    made of the lines of [report_entries], and each of these entries has a
    count above 2; when the output file can be opened these lines are its
    whole content. *)
Theorem report_counts_above_two (c : Counter) :
  write_entries (sorted_desc c) EmptyString = file_text (report_entries c) ∧
  Forall (λ e, 2 < e.2) (report_entries c) ∧
  ∀ os path w, open_w os path = None →
    files (write_sorted_output os c path w) path = Some (file_text (report_entries c)).
Proof.
  split; [by rewrite write_entries_file_text|].
  split; [apply report_entries_above|].
  intros os path w Hopen. by apply write_sorted_output_opened.
Qed.

Lemma report_counts_above_two_witness :
  report_entries sample_counter = [("10.0.0.3", 7); ("10.0.0.2", 3)] ∧
  files (write_sorted_output (sample_os [] None None) sample_counter
                             "out/report.txt" old_report_world)
        "out/report.txt" = Some (file_text (report_entries sample_counter)).
Proof.
  split; [reflexivity|].
  apply (proj2 (proj2 (report_counts_above_two sample_counter))). reflexivity.
Defined.

(** C8. The entries of the report are in order of count, largest first: of
    two entries the earlier one has a count at least as large as the later
    one. *)
Theorem report_sorted_by_count (c : Counter) :
  StronglySorted count_ge (report_entries c) ∧
  ∀ i j e1 e2, (i < j)%nat →
    report_entries c !! i = Some e1 → report_entries c !! j = Some e2 →
    e2.2 ≤ e1.2.
Proof.
  assert (StronglySorted count_ge (report_entries c)) as Hs.
  { apply filter_sorted, sorted_desc_sorted. }
  split; [done|]. intros i j e1 e2 Hij H1 H2.
  exact (sorted_lookup count_ge _ i j e1 e2 Hs Hij H1 H2).
Qed.

Lemma report_sorted_by_count_witness :
  report_entries tied_counter !! 1%nat = Some ("10.0.0.4", 5) ∧
  report_entries tied_counter !! 3%nat = Some ("10.0.0.3", 3) ∧
  3 ≤ 5.
Proof.
  split; [reflexivity|]. split; [reflexivity|].
  apply (proj2 (report_sorted_by_count tied_counter)
               1%nat 3%nat ("10.0.0.4", 5) ("10.0.0.3", 3));
    [lia|reflexivity|reflexivity].
Defined.

Lemma report_entries_none (c : Counter) :
  Forall (λ e, e.2 ≤ 2) c → report_entries c = [].
Proof.
  intros Hc. unfold report_entries.
  assert (Forall (λ e : string * Z, e.2 ≤ 2) (sorted_desc c)) as Hs.
  { by rewrite sorted_desc_perm. }
  induction Hs as [|e l He Hl IH]; [done|].
  cbn [List.filter]. by destruct (Z.ltb_spec 2 e.2); [lia|].
Qed.

(** C10. When no count exceeds 2 (the empty counter included) and the
    output file can be opened, the file is left empty, whatever it held
    before, and nothing is printed. *)
Theorem empty_report_truncates (os : os_env) (c : Counter) (path : string) (w : world) :
  Forall (λ e, e.2 ≤ 2) c →
  open_w os path = None →
  files (write_sorted_output os c path w) path = Some EmptyString ∧
  stdout (write_sorted_output os c path w) = stdout w.
Proof.
  intros Hc Hopen.
  destruct (write_sorted_output_opened os c path w Hopen) as [-> ->].
  by rewrite (report_entries_none c Hc).
Qed.

Lemma empty_report_truncates_witness :
  files old_report_world "out/report.txt" = Some "stale" ∧
  files (write_sorted_output (sample_os [] None None) [("10.0.0.1", 2); ("10.0.0.2", 1)]
                             "out/report.txt" old_report_world)
        "out/report.txt" = Some EmptyString.
Proof.
  split; [reflexivity|].
  apply (empty_report_truncates (sample_os [] None None)
           [("10.0.0.1", 2); ("10.0.0.2", 1)] "out/report.txt" old_report_world).
  - repeat constructor; cbn; lia.
  - reflexivity.
Defined.

(** ** The program *)

Lemma executor_accepts (max_workers : Z) :
  1 ≤ max_workers → ThreadPoolExecutor max_workers = Ok (Z.to_nat max_workers).
Proof.
  intros H. unfold ThreadPoolExecutor. by destruct (Z.leb_spec max_workers 0); [lia|].
Qed.

Lemma executor_refuses (max_workers : Z) :
  max_workers ≤ 0 →
  ThreadPoolExecutor max_workers = Raise (ValueError "max_workers must be greater than 0").
Proof.
  intros H. unfold ThreadPoolExecutor. by destruct (Z.leb_spec max_workers 0); [|lia].
Qed.

Lemma process_urls_concurrently_returns (dns : nat → resolver) (schedule : list nat)
      (urls : list string) (max_threads : Z) (c : Counter) (out : list string) :
  1 ≤ Z.min max_threads (Z.of_nat (length urls)) →
  ∃ c' out', process_urls_concurrently dns schedule urls max_threads c out = Ok (c', out').
Proof.
  intros H. unfold process_urls_concurrently. rewrite (executor_accepts _ H). eauto.
Qed.

(** C1. The executor is created with [min(max_threads, len(urls))] workers.
    Where that number is at least 1 it is the number the specification
    asks for; where it is 0 or negative (no URL, or a thread argument
    below 1) there is no clamp to 1: the executor refuses the size and
    [process_urls_concurrently] raises [ValueError]. *)
Theorem pool_size_is_not_clamped (dns : nat → resolver) (schedule : list nat)
        (urls : list string) (max_threads : Z) (c : Counter) (out : list string) :
  (1 ≤ Z.min max_threads (Z.of_nat (length urls)) →
   ThreadPoolExecutor (Z.min max_threads (Z.of_nat (length urls))) =
     Ok (Z.to_nat (spec_concurrency max_threads (length urls)))) ∧
  (Z.min max_threads (Z.of_nat (length urls)) ≤ 0 →
   spec_concurrency max_threads (length urls) = 1 ∧
   process_urls_concurrently dns schedule urls max_threads c out =
     Raise (ValueError "max_workers must be greater than 0")).
Proof.
  unfold spec_concurrency. split; intros H.
  - rewrite (executor_accepts _ H). do 2 f_equal. lia.
  - split; [lia|]. unfold process_urls_concurrently. by rewrite (executor_refuses _ H).
Qed.

Lemma pool_size_is_not_clamped_witness :
  spec_concurrency 100 (length (@nil string)) = 1 ∧
  process_urls_concurrently (λ _, always_timeout) [] [] 100 [] [] =
    Raise (ValueError "max_workers must be greater than 0").
Proof.
  apply (proj2 (pool_size_is_not_clamped (λ _, always_timeout) [] [] 100 [] [])).
  cbn. lia.
Defined.

(** An empty input file read with the default thread count: the run ends
    with the [ValueError] of the executor, before anything is printed. *)
Example main_empty_input :
  main (sample_os [] None None) (λ _, always_timeout) [] sample_args fresh_world =
    (Uncaught (ValueError "max_workers must be greater than 0"), fresh_world).
Proof. reflexivity. Qed.

Example main_zero_threads :
  main (sample_os ["example.com"] None None) (λ _, always_timeout) []
       (mkArgs "urls.txt" "out/report.txt" 0) fresh_world =
    (Uncaught (ValueError "max_workers must be greater than 0"), fresh_world).
Proof. reflexivity. Qed.

(** A failure to open the output file is printed, and the run goes on to
    its completion messages. *)
Lemma main_reports_write_failure (os : os_env) (dns : nat → resolver)
      (schedule : list nat) (a : args) (w : world) (urls : list string) (e : exn) :
  read_urls os (arg_file a) = inr urls →
  ensure_directory_exists os (arg_output a) = None →
  1 ≤ Z.min (arg_threads a) (Z.of_nat (length urls)) →
  open_w os (arg_output a) = Some e →
  ∃ out, main os dns schedule a w =
    (Completed,
     mkWorld (files w) ((out ++ ["写入文件失败: " +:+ exn_text e]) ++ completion_messages os a)).
Proof.
  intros Hread Hdir Hsize Hopen. unfold main. rewrite Hread, Hdir.
  destruct (process_urls_concurrently_returns dns schedule urls (arg_threads a)
              [] (stdout w) Hsize) as (c' & out' & ->).
  exists out'. unfold write_sorted_output. rewrite Hopen.
  unfold print, completion_messages. cbn [files stdout]. f_equal. f_equal.
  by rewrite <- !app_assoc.
Qed.

(** C9. A failure of [os.makedirs] in [ensure_directory_exists] is not
    handled: the exception leaves [main] before any URL is processed,
    nothing is printed and the completion messages are not reached. *)
Theorem directory_failure_escapes_main (os : os_env) (dns : nat → resolver)
        (schedule : list nat) (a : args) (w : world) (urls : list string) (e : exn) :
  read_urls os (arg_file a) = inr urls →
  ensure_directory_exists os (arg_output a) = Some e →
  main os dns schedule a w = (Uncaught e, w).
Proof. intros Hread Hdir. unfold main. by rewrite Hread, Hdir. Qed.

Lemma directory_failure_escapes_main_witness :
  main (sample_os ["example.com"] (Some permission_denied) None)
       (λ _, ipv6_only) [] sample_args fresh_world =
    (Uncaught permission_denied, fresh_world).
Proof.
  apply (directory_failure_escapes_main _ _ _ _ _ ["example.com"]); reflexivity.
Defined.

Example main_unwritable_output :
  main (sample_os ["example.com"] None (Some permission_denied))
       (λ _, ipv6_only) [] sample_args fresh_world =
    (Completed,
     mkWorld (λ _, None)
             (["域名: example.com | A 记录: 2001:db8::1";
               "写入文件失败: [Errno 13] Permission denied"] ++
              completion_messages (sample_os ["example.com"] None (Some permission_denied))
                                  sample_args)).
Proof. reflexivity. Qed.

(** ** Frequency aggregator *)

Lemma counter_get_set_eq (c : Counter) (ip : string) (v : Z) :
  counter_get (counter_set c ip v) ip = v.
Proof.
  induction c as [|[k v0] c IH]; cbn.
  - by rewrite String.eqb_refl.
  - destruct (String.eqb k ip) eqn:E; cbn; by rewrite E.
Qed.

Lemma counter_get_set_ne (c : Counter) (ip ip' : string) (v : Z) :
  ip ≠ ip' → counter_get (counter_set c ip v) ip' = counter_get c ip'.
Proof.
  intros Hne. induction c as [|[k v0] c IH]; cbn.
  - by destruct (String.eqb_spec ip ip').
  - destruct (String.eqb_spec k ip) as [->|Hk]; cbn.
    + by destruct (String.eqb_spec ip ip').
    + by rewrite IH.
Qed.

Lemma counter_set_keys (c : Counter) (ip k : string) (v : Z) :
  k ∈ map fst (counter_set c ip v) ↔ k = ip ∨ k ∈ map fst c.
Proof.
  induction c as [|[k0 v0] c IH]; cbn.
  - rewrite list_elem_of_singleton, elem_of_nil. tauto.
  - destruct (String.eqb_spec k0 ip) as [->|Hk]; cbn; rewrite !elem_of_cons.
    + tauto.
    + rewrite IH. tauto.
Qed.

Lemma counter_set_nodup (c : Counter) (ip : string) (v : Z) :
  NoDup (map fst c) → NoDup (map fst (counter_set c ip v)).
Proof.
  induction c as [|[k0 v0] c IH]; cbn; intros Hc.
  - apply NoDup_singleton.
  - apply NoDup_cons in Hc as [Hk0 Hc].
    destruct (String.eqb_spec k0 ip) as [->|Hk]; cbn; apply NoDup_cons.
    + done.
    + split; [|by apply IH]. rewrite counter_set_keys. intros [?|?]; done.
Qed.

Lemma counter_set_pos (c : Counter) (ip : string) (v : Z) :
  0 < v → Forall (λ e, 0 < e.2) c → Forall (λ e, 0 < e.2) (counter_set c ip v).
Proof.
  intros Hv. induction 1 as [|[k0 v0] c Hk Hc IH]; cbn.
  - by repeat constructor.
  - destruct (String.eqb k0 ip); by constructor.
Qed.

Lemma counter_get_nonneg (c : Counter) (ip : string) :
  Forall (λ e, 0 < e.2) c → 0 ≤ counter_get c ip.
Proof.
  induction 1 as [|[k0 v0] c Hk Hc IH]; cbn in *; [lia|].
  destruct (String.eqb k0 ip); lia.
Qed.

Lemma counter_get_in (c : Counter) (k : string) (v : Z) :
  NoDup (map fst c) → (k, v) ∈ c → counter_get c k = v.
Proof.
  induction c as [|[k0 v0] c IH]; cbn; intros Hc Hin.
  - by apply elem_of_nil in Hin.
  - apply NoDup_cons in Hc as [Hk0 Hc].
    apply elem_of_cons in Hin as [Heq|Hin].
    + injection Heq as -> ->. by rewrite String.eqb_refl.
    + destruct (String.eqb_spec k0 k) as [->|Hk]; [|by apply IH].
      exfalso. apply Hk0. change k with (k, v).1. by apply list_elem_of_fmap_2.
Qed.

Lemma counter_get_notin (c : Counter) (k : string) :
  k ∉ map fst c → counter_get c k = 0.
Proof.
  induction c as [|[k0 v0] c IH]; cbn; intros Hk; [done|].
  rewrite elem_of_cons in Hk.
  destruct (String.eqb_spec k0 k) as [->|Hne]; [|apply IH]; tauto.
Qed.

Lemma counter_total_ones (c : Counter) :
  Forall (λ e, e.2 = 1) c →
  counter_total c = Z.of_nat (length c) ∧ c = map (λ k, (k, 1)) (map fst c).
Proof.
  unfold counter_total.
  induction 1 as [|[k v] c Hk Hc [IH1 IH2]]; [done|].
  cbn in *. subst v. rewrite IH1, <- IH2. split; [lia|done].
Qed.

(** A counter that maps the addresses of [ips] to 1 and every other
    address to 0 consists of one item per address of [ips]. *)
Lemma counter_all_ones (c : Counter) (ips : list string) :
  NoDup (map fst c) → Forall (λ e, 0 < e.2) c → NoDup ips →
  (∀ ip, counter_get c ip = if bool_decide (ip ∈ ips) then 1 else 0) →
  c ≡ₚ map (λ ip, (ip, 1)) ips ∧ counter_total c = Z.of_nat (length ips).
Proof.
  intros Hkeys Hpos Hips Hget.
  assert (∀ k v, (k, v) ∈ c → k ∈ ips ∧ v = 1) as Hin.
  { intros k v Hkv.
    pose proof (counter_get_in c k v Hkeys Hkv) as Hv. rewrite Hget in Hv.
    rewrite Forall_forall in Hpos. specialize (Hpos _ Hkv). cbn in Hpos.
    case_bool_decide; [done|lia]. }
  assert (Forall (λ e, e.2 = 1) c) as Hones.
  { apply Forall_forall. intros [k v] Hkv. by destruct (Hin k v Hkv). }
  destruct (counter_total_ones c Hones) as [Htotal Hshape].
  assert (map fst c ≡ₚ ips) as Hperm.
  { apply NoDup_Permutation; [done..|]. intros k. split.
    - intros Hk. apply list_elem_of_fmap in Hk as ([k' v] & -> & Hkv).
      by destruct (Hin k' v Hkv).
    - intros Hk. destruct (decide (k ∈ map fst c)) as [|Hnot]; [done|].
      pose proof (counter_get_notin c k Hnot) as H0. rewrite Hget in H0.
      by rewrite bool_decide_eq_true_2 in H0. }
  split.
  - rewrite Hshape. by apply Permutation_map.
  - rewrite Htotal. f_equal. rewrite <- (length_map fst c). by rewrite Hperm.
Qed.

(** ** Worker pool *)

Lemma sum_update {X} (f : X → nat) (l : list X) (i : nat) (x y : X) :
  l !! i = Some x →
  (sum_list (map f (<[i:=y]> l)) + f x = sum_list (map f l) + f y)%nat.
Proof.
  revert i; induction l as [|z l IH]; intros [|i] Hi; try done.
  - injection Hi as ->. cbn. lia.
  - simpl in Hi |- *. specialize (IH i Hi). lia.
Qed.

Lemma sum_zero_lookup {X} (f : X → nat) (l : list X) (i : nat) (x : X) :
  sum_list (map f l) = 0%nat → l !! i = Some x → f x = 0%nat.
Proof.
  revert i; induction l as [|z l IH]; intros [|i] Hs Hi; cbn in *; try done.
  - injection Hi as ->. lia.
  - apply (IH i); [lia|done].
Qed.

Lemma sum_pos_lookup {X} (f : X → nat) (l : list X) :
  (0 < sum_list (map f l))%nat → ∃ i x, l !! i = Some x ∧ (0 < f x)%nat.
Proof.
  induction l as [|z l IH]; cbn; intros H; [lia|].
  destruct (f z) as [|n] eqn:E.
  - destruct IH as (i & x & Hi & Hx); [lia|]. by exists (S i), x.
  - exists 0%nat, z. split; [done|lia].
Qed.

Section PoolProofs.

Variable dns : nat → resolver.
Variable total : string → Z.

(** While one worker is between acquire and release, no other is. *)
Lemma critical_unique (ws : list pc) (i j : nat) (w w' : pc) :
  (critical_count ws ≤ 1)%nat →
  ws !! i = Some w → in_critical w = true →
  j ≠ i → ws !! j = Some w' → in_critical w' = false.
Proof.
  intros Hc Hi Hw Hne Hj. unfold critical_count in Hc.
  pose proof (sum_update (λ w, if in_critical w then 1 else 0)%nat ws i w Idle Hi) as Hs.
  cbn in Hs. rewrite Hw in Hs.
  assert ((if in_critical w' then 1 else 0)%nat = 0%nat) as H0.
  { apply (sum_zero_lookup (λ w, if in_critical w then 1 else 0)%nat
             (<[i:=Idle]> ws) j w'); [lia|].
    by rewrite list_lookup_insert_ne. }
  by destruct (in_critical w').
Qed.

Lemma occurrences_nil (a : string) : occurrences a [] = 0%nat.
Proof. reflexivity. Qed.

Lemma occurrences_cons (a b : string) (l : list string) :
  occurrences a (b :: l) = ((if String.eqb a b then 1 else 0) + occurrences a l)%nat.
Proof. unfold occurrences. cbn. by destruct (String.eqb a b). Qed.

Ltac critical Hw w' :=
  match type of Hw with
  | ?ws !! ?i = Some ?w =>
      pose proof (sum_update (λ x, if in_critical x then 1 else 0)%nat ws i w w' Hw)
        as Hcrit;
      cbn [in_critical] in Hcrit
  end.

Ltac owes Hw w' a :=
  match type of Hw with
  | ?ws !! ?i = Some ?w =>
      pose proof (sum_update (λ x, occurrences a (pending dns x)) ws i w w' Hw)
        as Howed;
      cbn [pending] in Howed;
      rewrite ?occurrences_nil, ?occurrences_cons in Howed
  end.

Ltac split_inv :=
  split; unfold set_worker; cbn [p_queue p_workers p_locked p_counter p_console];
  unfold critical_count, owed; cbn [p_queue p_workers map sum_list fst snd];
  try done.

(** Every step keeps the invariant. *)
Lemma step_worker_inv (i : nat) (s s' : pool) :
  pool_inv dns total s → step_worker dns i s = Some s' → pool_inv dns total s'.
Proof.
  intros [Htot Hlock Hread Hkeys Hpos] Hstep. unfold step_worker in Hstep.
  destruct (p_workers s !! i) as [w|] eqn:Hw; [|done].
  destruct s as [q ws l c o]. unfold critical_count, owed in *.
  cbn [p_queue p_workers p_locked p_counter p_console] in *.
  destruct w as [|tid url|d recs|d todo|d ip v todo|d ip todo].
  - destruct q as [|[tid url] q]; [done|]. injection Hstep as <-.
    critical Hw (Resolving tid url). split_inv.
    + intros a. specialize (Htot a). owes Hw (Resolving tid url) a.
      simpl in Htot. lia.
    + destruct l; lia.
    + by apply Forall_insert.
  - destruct (result_of dns tid url) as [|b recs] eqn:Hres; injection Hstep as <-.
    + critical Hw Idle. split_inv.
      * intros a. specialize (Htot a). owes Hw Idle a.
        rewrite Hres, occurrences_nil in Howed. lia.
      * destruct l; lia.
      * by apply Forall_insert.
    + critical Hw (Acquire (clean_url url) (b :: recs)). split_inv.
      * intros a. specialize (Htot a). owes Hw (Acquire (clean_url url) (b :: recs)) a.
        rewrite Hres, occurrences_cons in Howed. lia.
      * destruct l; lia.
      * by apply Forall_insert.
  - destruct l; [done|]. injection Hstep as <-.
    critical Hw (Loop d recs). split_inv.
    + intros a. specialize (Htot a). owes Hw (Loop d recs) a. lia.
    + lia.
    + by apply Forall_insert.
  - destruct todo as [|ip todo]; injection Hstep as <-.
    + critical Hw Idle. split_inv.
      * intros a. specialize (Htot a). owes Hw Idle a. lia.
      * destruct l; lia.
      * by apply Forall_insert.
    + critical Hw (Incr d ip (counter_get c ip) todo). split_inv.
      * intros a. specialize (Htot a).
        owes Hw (Incr d ip (counter_get c ip) todo) a. lia.
      * destruct l; lia.
      * by apply Forall_insert.
  - injection Hstep as <-.
    critical Hw (Emit d ip todo).
    pose proof (Forall_lookup_1 _ _ _ _ Hread Hw) as Hv. cbn in Hv.
    split_inv.
    + intros a. specialize (Htot a). owes Hw (Emit d ip todo) a.
      destruct (String.eqb_spec a ip) as [->|Hne].
      * rewrite counter_get_set_eq. lia.
      * rewrite counter_get_set_ne by done. lia.
    + destruct l; lia.
    + apply Forall_lookup. intros j w' Hj.
      destruct (decide (j = i)) as [->|Hne].
      * rewrite list_lookup_insert_eq in Hj by (by eapply lookup_lt_Some).
        by injection Hj as <-.
      * rewrite list_lookup_insert_ne in Hj by done.
        assert (in_critical w' = false) as Hcw.
        { apply (critical_unique ws i j (Incr d ip v todo) w'); try done.
          unfold critical_count. destruct l; lia. }
        by destruct w'.
    + by apply counter_set_nodup.
    + apply counter_set_pos; [|done].
      pose proof (counter_get_nonneg c ip Hpos). lia.
  - injection Hstep as <-.
    critical Hw (Loop d todo). split_inv.
    + intros a. specialize (Htot a). owes Hw (Loop d todo) a. lia.
    + destruct l; lia.
    + by apply Forall_insert.
Qed.

Lemma steps_inv (s s' : pool) :
  pool_inv dns total s → steps dns s s' → pool_inv dns total s'.
Proof.
  intros Hinv Hsteps. induction Hsteps as [s|s1 s2 s3 [i Hstep] _ IH]; [done|].
  apply IH. by eapply step_worker_inv.
Qed.

Lemma step_worker_length (i : nat) (s s' : pool) :
  step_worker dns i s = Some s' → length (p_workers s') = length (p_workers s).
Proof.
  intros Hstep. unfold step_worker, set_worker in Hstep.
  repeat case_match; simplify_eq; cbn; by rewrite ?length_insert.
Qed.

Ltac weighs Hw w' :=
  match type of Hw with
  | ?ws !! ?i = Some ?w =>
      pose proof (sum_update (pc_weight dns) ws i w w' Hw) as Hweight;
      cbn [pc_weight length] in Hweight
  end.

(** Every step brings the pool closer to the end: no run is infinite. *)
Lemma step_worker_weight (i : nat) (s s' : pool) :
  step_worker dns i s = Some s' → (pool_weight dns s' < pool_weight dns s)%nat.
Proof.
  intros Hstep. unfold step_worker, set_worker in Hstep.
  destruct (p_workers s !! i) as [w|] eqn:Hw; [|done].
  destruct s as [q ws l c o]. unfold pool_weight.
  cbn [p_queue p_workers p_locked p_counter p_console] in *.
  destruct w as [|tid url|d recs|d todo|d ip v todo|d ip todo].
  - destruct q as [|[tid url] q]; [done|]. injection Hstep as <-.
    weighs Hw (Resolving tid url).
    simpl. unfold item_weight at 2. cbn [fst snd]. lia.
  - destruct (result_of dns tid url) as [|b recs] eqn:Hres; injection Hstep as <-.
    + weighs Hw Idle. cbn [p_queue p_workers]. lia.
    + weighs Hw (Acquire (clean_url url) (b :: recs)). rewrite Hres in Hweight.
      cbn [length] in Hweight. cbn [p_queue p_workers]. lia.
  - destruct l; [done|]. injection Hstep as <-.
    weighs Hw (Loop d recs). cbn [p_queue p_workers]. lia.
  - destruct todo as [|ip todo]; injection Hstep as <-.
    + weighs Hw Idle. cbn [p_queue p_workers]. lia.
    + weighs Hw (Incr d ip (counter_get c ip) todo). cbn [p_queue p_workers]. lia.
  - injection Hstep as <-. weighs Hw (Emit d ip todo). cbn [p_queue p_workers]. lia.
  - injection Hstep as <-. weighs Hw (Loop d todo). cbn [p_queue p_workers]. lia.
Qed.

Lemma forallb_false_lookup {X} (f : X → bool) (l : list X) :
  forallb f l = false → ∃ i x, l !! i = Some x ∧ f x = false.
Proof.
  induction l as [|z l IH]; cbn; [done|].
  destruct (f z) eqn:E; cbn; intros H.
  - destruct (IH H) as (i & x & Hi & Hx). by exists (S i), x.
  - by exists 0%nat, z.
Qed.

(** No deadlock: as long as a task is left, some worker can take a step. *)
Lemma progress (s : pool) :
  pool_inv dns total s → (0 < length (p_workers s))%nat → finished s = false →
  ∃ i s', step_worker dns i s = Some s'.
Proof.
  intros [_ Hlock _ _ _] Hlen Hfin. destruct s as [q ws l c o].
  unfold finished, critical_count, step_worker in *.
  cbn [p_queue p_workers p_locked p_counter p_console] in *.
  destruct l.
  - destruct (sum_pos_lookup (λ w, if in_critical w then 1 else 0)%nat ws)
      as (i & w & Hi & Hw); [lia|].
    exists i. rewrite Hi.
    destruct w as [|tid url|d recs|d [|ip todo]|d ip v todo|d ip todo];
      cbn in Hw; try lia; eauto.
  - destruct (forallb is_idle ws) eqn:Hidle.
    + destruct q as [|[tid url] q]; [done|].
      destruct ws as [|w ws]; [cbn in Hlen; lia|].
      cbn in Hidle. apply andb_prop in Hidle as [Hw _].
      exists 0%nat. cbn. destruct w; try done. eauto.
    + apply forallb_false_lookup in Hidle as (i & w & Hi & Hw).
      pose proof (sum_zero_lookup (λ w, if in_critical w then 1 else 0)%nat
                    ws i w Hlock Hi) as Hc.
      exists i. rewrite Hi. unfold set_worker.
      destruct w as [|tid url|d recs|d todo|d ip v todo|d ip todo];
        cbn in Hw, Hc; try done.
      * destruct (result_of dns tid url); eauto.
      * eauto.
Qed.

Lemma pick_sound (candidates : list nat) (s s' : pool) :
  pick dns candidates s = Some s' → ∃ i, step_worker dns i s = Some s'.
Proof.
  induction candidates as [|i rest IH]; cbn; [done|].
  destruct (step_worker dns i s) as [s1|] eqn:E; [|done].
  intros [= <-]. eauto.
Qed.

Lemma pick_complete (candidates : list nat) (s : pool) (i : nat) :
  pick dns candidates s = None → i ∈ candidates → step_worker dns i s = None.
Proof.
  induction candidates as [|j rest IH]; cbn; intros Hp Hi.
  - by apply elem_of_nil in Hi.
  - destruct (step_worker dns j s) as [s1|] eqn:E; [done|].
    apply elem_of_cons in Hi as [->|Hi]; [done|by apply IH].
Qed.

Lemma run_schedule_steps (schedule : list nat) (s : pool) :
  steps dns s (run_schedule dns schedule s).
Proof.
  revert s; induction schedule as [|i rest IH]; intros s; cbn; [apply rtc_refl|].
  destruct (step_worker dns i s) as [s1|] eqn:E; [|apply IH].
  eapply rtc_l; [by exists i|apply IH].
Qed.

Lemma steps_length (s s' : pool) :
  steps dns s s' → length (p_workers s') = length (p_workers s).
Proof.
  induction 1 as [s|s1 s2 s3 [i Hstep] _ IH]; [done|].
  rewrite IH. by eapply step_worker_length.
Qed.

(** Left to itself, the pool runs every task to its end. *)
Lemma drain_finishes (fuel : nat) (s : pool) :
  pool_inv dns total s → (0 < length (p_workers s))%nat →
  (pool_weight dns s ≤ fuel)%nat →
  steps dns s (drain dns fuel s) ∧ finished (drain dns fuel s) = true.
Proof.
  revert s; induction fuel as [|fuel IH]; intros s Hinv Hlen Hfuel.
  - cbn. split; [apply rtc_refl|].
    destruct (finished s) eqn:Hfin; [done|].
    destruct (progress s Hinv Hlen Hfin) as (i & s1 & Hstep).
    apply step_worker_weight in Hstep. lia.
  - cbn [drain]. destruct (pick dns _ s) as [s1|] eqn:Hp.
    + apply pick_sound in Hp as [i Hstep].
      destruct (IH s1) as [Hsteps Hfin].
      * by eapply step_worker_inv.
      * by rewrite (step_worker_length _ _ _ Hstep).
      * apply step_worker_weight in Hstep. lia.
      * split; [|done]. eapply rtc_l; [by exists i|exact Hsteps].
    + split; [apply rtc_refl|].
      destruct (finished s) eqn:Hfin; [done|].
      destruct (progress s Hinv Hlen Hfin) as (i & s1 & Hstep).
      rewrite (pick_complete _ s i Hp) in Hstep; [done|].
      apply elem_of_seq. split; [lia|]. cbn.
      unfold step_worker in Hstep.
      destruct (p_workers s !! i) as [w|] eqn:Hw; [|done].
      by eapply lookup_lt_Some.
Qed.

End PoolProofs.

(** *** From the first submission to the last release *)

Lemma replicate_idle_sum (f : pc → nat) (n : nat) :
  f Idle = 0%nat → sum_list (map f (replicate n Idle)) = 0%nat.
Proof. intros H. induction n as [|n IH]; cbn; [done|]. rewrite H. exact IH. Qed.

Lemma init_pool_inv (dns : nat → resolver) (workers : nat) (urls : list string) :
  pool_inv dns (λ ip, Z.of_nat (owed dns ip (init_pool workers urls [] [])))
           (init_pool workers urls [] []).
Proof.
  split; cbn.
  - done.
  - unfold critical_count. by rewrite replicate_idle_sum.
  - by apply Forall_replicate.
  - apply NoDup_nil_2.
  - constructor.
Qed.

Lemma finished_owed (dns : nat → resolver) (s : pool) (ip : string) :
  finished s = true → owed dns ip s = 0%nat.
Proof.
  unfold finished, owed. destruct (p_queue s); [|done]. cbn.
  induction (p_workers s) as [|w ws IH]; cbn; [done|].
  intros H. apply andb_prop in H as [Hw Hws].
  rewrite (IH Hws). by destruct w.
Qed.

Lemma result_of_first_answer (dns : nat → resolver) (tid : nat) (url : string)
      (rdata : list string) :
  dns tid (clean_url url) A 10 0%nat = Answers rdata → result_of dns tid url = rdata.
Proof.
  intros H. unfold result_of, query_dns. change (Z.to_nat 5) with 5%nat.
  cbn [query_dns_loop]. by rewrite H.
Qed.

Lemma occurrences_app (a : string) (l1 l2 : list string) :
  occurrences a (l1 ++ l2) = (occurrences a l1 + occurrences a l2)%nat.
Proof. unfold occurrences. by rewrite List.filter_app, length_app. Qed.

Lemma owed_queue (dns : nat → resolver) (items : list (nat * string)) (a : string) :
  sum_list (map (λ it, occurrences a (result_of dns it.1 it.2)) items) =
    occurrences a (concat (map (λ it, result_of dns it.1 it.2) items)).
Proof.
  induction items as [|it items IH]; [done|].
  cbn [map sum_list concat]. rewrite occurrences_app. simpl. by rewrite IH.
Qed.

Lemma owed_init (dns : nat → resolver) (workers : nat) (urls : list string)
      (a : string) :
  owed dns a (init_pool workers urls [] []) = occurrences a (all_results dns urls).
Proof.
  unfold owed, init_pool, all_results. cbn [p_queue p_workers].
  rewrite owed_queue, replicate_idle_sum; [lia|done].
Qed.

(** No update is lost: when all tasks are done, each address has been
    counted as often as the tasks resolved to it. *)
Lemma finished_counts (dns : nat → resolver) (workers : nat) (urls : list string)
      (s : pool) (ip : string) :
  steps dns (init_pool workers urls [] []) s → finished s = true →
  counter_get (p_counter s) ip = Z.of_nat (occurrences ip (all_results dns urls)).
Proof.
  intros Hsteps Hfin.
  pose proof (steps_inv dns _ _ _ (init_pool_inv dns workers urls) Hsteps)
    as [Htot _ _ _ _].
  specialize (Htot ip). cbn beta in Htot.
  rewrite (finished_owed dns s ip Hfin), (owed_init dns workers urls ip) in Htot. lia.
Qed.

Lemma resolves_to_all_results (dns : nat → resolver) (urls ips : list string) :
  resolves_to dns urls ips → all_results dns urls = ips.
Proof.
  unfold resolves_to, all_results.
  induction 1 as [|it ip items ips H _ IH]; [done|].
  cbn [map concat]. by rewrite H, IH.
Qed.

Lemma occurrences_nodup (a : string) (ips : list string) :
  NoDup ips → occurrences a ips = if bool_decide (a ∈ ips) then 1%nat else 0%nat.
Proof.
  induction 1 as [|b ips Hb Hips IH]; [done|].
  rewrite occurrences_cons, IH.
  destruct (String.eqb_spec a b) as [->|Hne].
  - rewrite (bool_decide_eq_false_2 _ Hb).
    by rewrite bool_decide_eq_true_2 by apply list_elem_of_here.
  - destruct (bool_decide_reflect (a ∈ ips)) as [Hin|Hnot].
    + by rewrite bool_decide_eq_true_2 by by apply list_elem_of_further.
    + rewrite bool_decide_eq_false_2; [done|].
      rewrite elem_of_cons. tauto.
Qed.

Lemma number_length {X} (l : list X) : length (number l) = length l.
Proof. unfold number. rewrite length_zip_with, length_seq. lia. Qed.

(** When the pool has run all tasks, the counter holds every address of
    [ips] once and nothing else. *)
Lemma finished_counter (dns : nat → resolver) (workers : nat)
      (urls ips : list string) (s : pool) :
  NoDup ips → resolves_to dns urls ips →
  steps dns (init_pool workers urls [] []) s → finished s = true →
  p_counter s ≡ₚ map (λ ip, (ip, 1)) ips ∧
  counter_total (p_counter s) = Z.of_nat (length urls).
Proof.
  intros Hips Hres Hsteps Hfin.
  pose proof (steps_inv dns _ _ _ (init_pool_inv dns workers urls) Hsteps)
    as [_ _ _ Hkeys Hpos].
  rewrite <- (number_length urls), (Forall2_length _ _ _ Hres).
  apply counter_all_ones; [done..|].
  intros ip. rewrite (finished_counts dns workers urls s ip Hsteps Hfin).
  rewrite (resolves_to_all_results dns urls ips Hres), (occurrences_nodup ip ips Hips).
  by case_bool_decide.
Qed.

(** C2. N tasks, each resolved to an address of its own, on any number of
    workers and in any interleaving of their steps: when all tasks are
    done the counter consists of the N addresses, each with count 1, and
    its total is N.  As long as a task is left some worker can step, so
    with at least one worker the end is reached; so is it by
    [process_urls_concurrently] under every schedule, unless there is no
    URL at all and the executor refuses to start. *)
Theorem concurrent_counts_lose_no_update (dns : nat → resolver)
        (urls ips : list string) (max_threads : Z) :
  NoDup ips → resolves_to dns urls ips → 1 ≤ max_threads →
  (∀ workers s,
     steps dns (init_pool workers urls [] []) s → finished s = true →
     p_counter s ≡ₚ map (λ ip, (ip, 1)) ips ∧
     counter_total (p_counter s) = Z.of_nat (length urls)) ∧
  (∀ workers s,
     (1 ≤ workers)%nat →
     steps dns (init_pool workers urls [] []) s → finished s = false →
     ∃ s', step dns s s') ∧
  (∀ schedule,
     match process_urls_concurrently dns schedule urls max_threads [] [] with
     | Ok (c, _) =>
         c ≡ₚ map (λ ip, (ip, 1)) ips ∧ counter_total c = Z.of_nat (length urls)
     | Raise _ => urls = []
     end).
Proof.
  intros Hips Hres Hthreads. split; [|split].
  - intros workers s. by apply finished_counter.
  - intros workers s Hw Hsteps Hfin.
    pose proof (steps_inv dns _ _ _ (init_pool_inv dns workers urls) Hsteps) as Hinv.
    destruct (progress dns _ s Hinv) as (i & s' & Hstep); [|done|by exists s', i].
    rewrite (steps_length dns _ _ Hsteps). cbn. rewrite length_replicate. lia.
  - intros schedule. unfold process_urls_concurrently.
    destruct (Z.leb_spec (Z.min max_threads (Z.of_nat (length urls))) 0) as [Hle|Hgt].
    + rewrite (executor_refuses _ Hle). destruct urls; [done|cbn in Hle; lia].
    + rewrite executor_accepts by lia.
      set (workers := Z.to_nat (Z.min max_threads (Z.of_nat (length urls)))).
      set (s0 := init_pool workers urls [] []).
      set (s1 := run_schedule dns schedule s0).
      assert (steps dns s0 s1) as H01 by apply run_schedule_steps.
      pose proof (steps_inv dns _ _ _ (init_pool_inv dns workers urls) H01) as Hinv.
      destruct (drain_finishes dns _ (pool_weight dns s1) s1 Hinv) as [H12 Hfin];
        [|lia|].
      { rewrite (steps_length dns _ _ H01). cbn. rewrite length_replicate.
        unfold workers. lia. }
      apply (finished_counter dns workers urls ips); [done..| |done].
      by etrans.
Qed.

Lemma concurrent_counts_lose_no_update_witness :
  match process_urls_concurrently three_hosts [0; 1; 1; 1; 1; 1; 1; 1]%nat
                                  three_urls 2 [] [] with
  | Ok (c, _) =>
      c ≡ₚ map (λ ip, (ip, 1)) three_ips ∧
      counter_total c = Z.of_nat (length three_urls)
  | Raise _ => three_urls = []
  end.
Proof.
  refine (proj2 (proj2 (concurrent_counts_lose_no_update
                          three_hosts three_urls three_ips 2 _ _ _)) _).
  - apply (bool_decide_unpack _). vm_compute. exact I.
  - repeat constructor.
  - lia.
Defined.

(** Two workers, the second one first to the lock: the items of the
    counter come in another order, the counts are the same. *)
Example two_workers_interleaved :
  process_urls_concurrently three_hosts [0; 1; 1; 1; 1; 1; 1; 1]%nat three_urls 2 [] [] =
    Ok ([("192.0.2.2", 1); ("192.0.2.1", 1); ("192.0.2.3", 1)],
        ["域名: b.example | A 记录: 192.0.2.2";
         "域名: a.example | A 记录: 192.0.2.1";
         "域名: c.example | A 记录: 192.0.2.3"]).
Proof. reflexivity. Qed.

(** The three inputs of the specification's scenario, all for one name
    with one address: the address is counted three times and reported. *)
Example same_host_three_times :
  process_urls_concurrently (λ _ _ _ _ _, Answers ["93.184.216.34"]) [2; 0; 1; 1; 0]%nat
    ["http://example.com"; "https://example.com"; "example.com"] 100 [] [] =
    Ok ([("93.184.216.34", 3)],
        ["域名: example.com | A 记录: 93.184.216.34";
         "域名: example.com | A 记录: 93.184.216.34";
         "域名: example.com | A 记录: 93.184.216.34"]) ∧
  report_entries [("93.184.216.34", 3)] = [("93.184.216.34", 3)].
Proof. split; reflexivity. Qed.

(** No more tasks run at a time than the executor has workers. *)
Lemma active_bound (dns : nat → resolver) (workers : nat) (urls : list string)
      (c : Counter) (out : list string) (s : pool) :
  steps dns (init_pool workers urls c out) s → (active s ≤ workers)%nat.
Proof.
  intros Hsteps. unfold active.
  etrans; [apply List.filter_length_le|].
  rewrite (steps_length dns _ _ Hsteps). cbn. by rewrite length_replicate.
Qed.

(** *** A pool of one worker *)

Section OneWorker.

Variable dns : nat → resolver.

Lemma drain_step (fuel : nat) (s s' : pool) :
  pick dns (seq 0 (length (p_workers s))) s = Some s' →
  drain dns (S fuel) s = drain dns fuel s'.
Proof. intros H. cbn [drain]. by rewrite H. Qed.

Lemma drain_loop (fuel : nat) (d : string) (todo : list string)
      (q : list (nat * string)) (c : Counter) (out : list string) :
  (3 * length todo + 1 ≤ fuel)%nat →
  drain dns fuel (mkPool q [Loop d todo] true c out) =
    drain dns (fuel - (3 * length todo + 1))
          (mkPool q [Idle] false (record_all d todo c out).1 (record_all d todo c out).2).
Proof.
  revert fuel c out; induction todo as [|ip todo IH]; intros fuel c out Hfuel.
  - destruct fuel as [|fuel]; [cbn in Hfuel; lia|].
    rewrite (drain_step fuel _ (mkPool q [Idle] false c out)) by reflexivity.
    cbn [record_all fst snd length]. f_equal. lia.
  - cbn [length] in Hfuel.
    do 3 (destruct fuel as [|fuel]; [lia|]).
    rewrite (drain_step _ _ (mkPool q [Incr d ip (counter_get c ip) todo] true c out))
      by reflexivity.
    rewrite (drain_step _ _ (mkPool q [Emit d ip todo] true
                                    (counter_set c ip (counter_get c ip + 1)) out))
      by reflexivity.
    rewrite (drain_step _ _ (mkPool q [Loop d todo] true
                                    (counter_set c ip (counter_get c ip + 1))
                                    (out ++ [log_line d ip])))
      by reflexivity.
    rewrite IH by lia. cbn [record_all length]. f_equal. lia.
Qed.

(** One worker takes the tasks in the order of submission and runs each
    as [process_url] does. *)
Lemma drain_one_worker (items : list (nat * string)) (fuel : nat)
      (c : Counter) (out : list string) :
  (pool_weight dns (mkPool items [Idle] false c out) ≤ fuel)%nat →
  drain dns fuel (mkPool items [Idle] false c out) =
    mkPool [] [Idle] false (run_sequentially dns items (c, out)).1
                           (run_sequentially dns items (c, out)).2.
Proof.
  revert fuel c out; induction items as [|[tid url] items IH]; intros fuel c out Hfuel.
  - by destruct fuel.
  - unfold pool_weight in Hfuel, IH.
    cbn [p_queue p_workers map sum_list item_weight pc_weight fst snd] in Hfuel, IH.
    simpl in Hfuel, IH. unfold item_weight at 1 in Hfuel. cbn [fst snd] in Hfuel.
    cbn [run_sequentially fold_left fst snd]. fold (run_sequentially dns items).
    destruct fuel as [|fuel]; [lia|].
    rewrite (drain_step _ _ (mkPool items [Resolving tid url] false c out))
      by reflexivity.
    unfold process_url. fold (result_of dns tid url).
    destruct (result_of dns tid url) as [|b recs] eqn:Hres.
    + destruct fuel as [|fuel]; [lia|].
      rewrite (drain_step _ _ (mkPool items [Idle] false c out)).
      * apply IH. cbn [length] in Hfuel. lia.
      * cbn. unfold step_worker. cbn. by rewrite Hres.
    + cbn [length] in Hfuel. do 2 (destruct fuel as [|fuel]; [lia|]).
      rewrite (drain_step _ _ (mkPool items [Acquire (clean_url url) (b :: recs)]
                                      false c out)).
      2: { cbn. unfold step_worker. cbn. by rewrite Hres. }
      rewrite (drain_step _ _ (mkPool items [Loop (clean_url url) (b :: recs)]
                                      true c out)) by reflexivity.
      rewrite drain_loop by (cbn [length]; lia).
      destruct (record_all (clean_url url) (b :: recs) c out) as [c' out'] eqn:Hrec.
      apply IH. cbn [length]. lia.
Qed.

End OneWorker.

(** With one thread the tasks run in the order of the input, each as
    [process_url] on its own. *)
Lemma one_thread_is_sequential (dns : nat → resolver) (url : string)
      (urls : list string) (c : Counter) (out : list string) :
  process_urls_concurrently dns [] (url :: urls) 1 c out =
    Ok (run_sequentially dns (number (url :: urls)) (c, out)).
Proof.
  unfold process_urls_concurrently.
  rewrite executor_accepts by (cbn [length]; lia).
  replace (Z.to_nat (Z.min 1 (Z.of_nat (length (url :: urls))))) with 1%nat
    by (cbn [length]; lia).
  cbn [run_schedule]. unfold init_pool. cbn [replicate].
  rewrite drain_one_worker by lia. cbn [p_counter p_console].
  by destruct run_sequentially.
Qed.

(** * Further properties *)

(** ** Resolver client: answers, bounds, provenance *)

(** X1. When the A lookup answers in iteration [k], after [k] failures other
    than "no answer", [query_dns] returns that answer at once: [k] sleeps
    of 2 before it, no AAAA lookup, nothing after the answering lookup. *)
Theorem query_dns_answer_after_retries (resolve : resolver) (domain : string)
        (k : nat) (rdata : list string) :
  (k < 5)%nat →
  (∀ j, (j < k)%nat → retriable resolve domain j) →
  resolve domain A 10 k = Answers rdata →
  query_dns resolve domain 5 2 =
    (rdata, concat (replicate k (failed_attempt domain 2)) ++ [Lookup domain A 10]) ∧
  total_sleep (query_dns resolve domain 5 2).2 = 2 * Z.of_nat k ∧
  lookups AAAA (query_dns resolve domain 5 2).2 = 0%nat.
Proof.
  intros Hk Hfail Hans.
  assert (query_dns resolve domain 5 2 =
            (rdata, concat (replicate k (failed_attempt domain 2)) ++ [Lookup domain A 10]))
    as Hq.
  { unfold query_dns. change (Z.to_nat 5) with 5%nat.
    rewrite (query_dns_loop_retriable resolve domain 2 5 k 0);
      [|lia|intros j Hj; apply Hfail; lia].
    cbn [Nat.add fst snd].
    destruct (5 - k)%nat as [|n] eqn:E; [lia|].
    cbn [query_dns_loop]. by rewrite Hans. }
  rewrite Hq. cbn [snd]. split; [done|].
  rewrite total_sleep_app, total_sleep_failed, lookups_app.
  rewrite (proj2 (lookups_failed domain 2 k)).
  split; [|done]. unfold total_sleep; cbn. lia.
Qed.

Lemma query_dns_answer_after_retries_witness :
  query_dns (λ _ _ _ attempt, match attempt with
                              | 2%nat => Answers ["198.51.100.7"]
                              | _ => Fails NXDOMAIN
                              end) "late.example" 5 2 =
    (["198.51.100.7"],
     concat (replicate 2 (failed_attempt "late.example" 2)) ++
     [Lookup "late.example" A 10]) ∧
  total_sleep (query_dns (λ _ _ _ attempt, match attempt with
                                           | 2%nat => Answers ["198.51.100.7"]
                                           | _ => Fails NXDOMAIN
                                           end) "late.example" 5 2).2 = 2 * Z.of_nat 2 ∧
  lookups AAAA (query_dns (λ _ _ _ attempt, match attempt with
                                            | 2%nat => Answers ["198.51.100.7"]
                                            | _ => Fails NXDOMAIN
                                            end) "late.example" 5 2).2 = 0%nat.
Proof.
  apply (query_dns_answer_after_retries _ "late.example" 2 ["198.51.100.7"]).
  - lia.
  - intros j Hj. exists NXDOMAIN. split; [|discriminate].
    destruct j as [|[|j]]; [reflexivity|reflexivity|lia].
  - reflexivity.
Defined.

Lemma query_dns_loop_bounds (resolve : resolver) (domain : string) (delay : Z)
      (remaining attempt : nat) :
  0 ≤ delay →
  (lookups A (query_dns_loop resolve domain delay attempt remaining).2 ≤ remaining)%nat ∧
  (lookups AAAA (query_dns_loop resolve domain delay attempt remaining).2 ≤ 1)%nat ∧
  0 ≤ total_sleep (query_dns_loop resolve domain delay attempt remaining).2
    ≤ Z.of_nat remaining * delay.
Proof.
  intros Hdelay. revert attempt; induction remaining as [|remaining IH]; intros attempt.
  - cbn. unfold total_sleep. cbn. lia.
  - cbn [query_dns_loop].
    destruct (resolve domain A 10 attempt) as [rdata|e].
    + unfold total_sleep, lookups. cbn. lia.
    + destruct (is_NoAnswer e).
      * destruct (resolve domain AAAA 10 attempt); unfold total_sleep, lookups; cbn; lia.
      * specialize (IH (S attempt)).
        destruct (query_dns_loop resolve domain delay (S attempt) remaining) as [r t].
        cbn [snd] in *. unfold total_sleep, lookups in *. cbn. lia.
Qed.

(** X2. Whatever the DNS library answers, one call of [query_dns] makes at
    most [retries] A lookups and at most one AAAA lookup, and the time it
    sleeps is at most [retries * delay]: 5 lookups and 10 units with the
    default arguments. *)
Theorem query_dns_bounded (resolve : resolver) (domain : string) (retries delay : Z) :
  0 ≤ retries → 0 ≤ delay →
  (lookups A (query_dns resolve domain retries delay).2 ≤ Z.to_nat retries)%nat ∧
  (lookups AAAA (query_dns resolve domain retries delay).2 ≤ 1)%nat ∧
  0 ≤ total_sleep (query_dns resolve domain retries delay).2 ≤ retries * delay.
Proof.
  intros Hretries Hdelay. unfold query_dns.
  destruct (query_dns_loop_bounds resolve domain delay (Z.to_nat retries) 0 Hdelay)
    as (HA & H4 & Hs).
  rewrite Z2Nat.id in Hs by done. repeat split; lia.
Qed.

Lemma query_dns_bounded_witness :
  (lookups A (query_dns flaky_then_empty "v6.example" 5 2).2 ≤ Z.to_nat 5)%nat ∧
  (lookups AAAA (query_dns flaky_then_empty "v6.example" 5 2).2 ≤ 1)%nat ∧
  0 ≤ total_sleep (query_dns flaky_then_empty "v6.example" 5 2).2 ≤ 5 * 2.
Proof. apply (query_dns_bounded flaky_then_empty "v6.example" 5 2); lia. Defined.

Lemma query_dns_loop_provenance (resolve : resolver) (domain : string) (delay : Z)
      (remaining attempt : nat) (ip : string) :
  ip ∈ (query_dns_loop resolve domain delay attempt remaining).1 →
  ∃ rd j rdata, (attempt ≤ j < attempt + remaining)%nat ∧
    resolve domain rd 10 j = Answers rdata ∧
    (query_dns_loop resolve domain delay attempt remaining).1 = rdata.
Proof.
  revert attempt; induction remaining as [|remaining IH]; intros attempt.
  - cbn. intros H. by apply elem_of_nil in H.
  - cbn [query_dns_loop].
    destruct (resolve domain A 10 attempt) as [rdata|e] eqn:HA.
    + intros _. exists A, attempt, rdata. repeat split; [lia|lia|done].
    + destruct (is_NoAnswer e).
      * destruct (resolve domain AAAA 10 attempt) as [rdata|e4] eqn:H4.
        -- intros _. exists AAAA, attempt, rdata. repeat split; [lia|lia|done].
        -- cbn. intros H. by apply elem_of_nil in H.
      * specialize (IH (S attempt)).
        destruct (query_dns_loop resolve domain delay (S attempt) remaining) as [r t].
        cbn [fst] in *. intros Hin.
        destruct (IH Hin) as (rd & j & rdata & Hj & Hr & Heq).
        exists rd, j, rdata. repeat split; [lia|lia|done|done].
Qed.

(** X3. [query_dns] invents no address: when its result holds an address,
    the result is, as a whole, the answer the DNS library gave to one of
    the A or AAAA lookups of the call. *)
Theorem query_dns_result_is_an_answer (resolve : resolver) (domain : string)
        (retries delay : Z) (ip : string) :
  ip ∈ (query_dns resolve domain retries delay).1 →
  ∃ rd attempt,
    (attempt < Z.to_nat retries)%nat ∧
    resolve domain rd 10 attempt = Answers (query_dns resolve domain retries delay).1.
Proof.
  unfold query_dns. intros Hin.
  destruct (query_dns_loop_provenance resolve domain delay _ 0 ip Hin)
    as (rd & j & rdata & Hj & Hr & Heq).
  exists rd, j. split; [lia|]. by rewrite Heq.
Qed.

Lemma query_dns_result_is_an_answer_witness :
  ∃ rd attempt,
    (attempt < Z.to_nat 5)%nat ∧
    ipv6_only "v6.example" rd 10 attempt = Answers (query_dns ipv6_only "v6.example" 5 2).1.
Proof.
  apply (query_dns_result_is_an_answer ipv6_only "v6.example" 5 2 "2001:db8::1").
  apply list_elem_of_here.
Defined.

(** ** URL normaliser: what is removed *)

Lemma string_prefix_app (p s : string) :
  String.prefix p s = true → ∃ rest, s = p +:+ rest.
Proof.
  revert s; induction p as [|a p IH]; intros s H.
  - by exists s.
  - destruct s as [|b s]; [done|]. cbn in H.
    destruct (ascii_dec a b) as [->|]; [|done].
    destruct (IH s H) as [rest ->]. by exists rest.
Qed.

(** X4. [clean_url] only ever removes a prefix, and that prefix is empty,
    [http://] or [https://]: the rest of the line (a port, a path, a
    second scheme, surrounding text) comes back untouched, and the result
    is never longer than the line. *)
Theorem clean_url_removes_a_prefix (url : string) :
  (∃ pre, url = pre +:+ clean_url url ∧
          (pre = EmptyString ∨ pre = "http://" ∨ pre = "https://")) ∧
  (String.length (clean_url url) ≤ String.length url)%nat.
Proof.
  assert (∃ pre, url = pre +:+ clean_url url ∧
                 (pre = EmptyString ∨ pre = "http://" ∨ pre = "https://")) as H.
  { destruct (String.prefix "https://" url) eqn:Hs.
    - destruct (string_prefix_app _ _ Hs) as [rest ->]. exists "https://".
      rewrite (clean_url_matched _ rest (match_https rest)); [auto|].
      rewrite string_length_app. cbn. lia.
    - destruct (String.prefix "http://" url) eqn:Hp.
      + destruct (string_prefix_app _ _ Hp) as [rest ->]. exists "http://".
        rewrite (clean_url_matched _ rest (match_http rest)); [auto|].
        rewrite string_length_app. cbn. lia.
      + exists EmptyString.
        rewrite (clean_url_unmatched url (match_scheme_none url Hp Hs)). auto. }
  split; [done|].
  destruct H as (pre & Heq & _). rewrite Heq at 2. rewrite string_length_app. lia.
Qed.

(** ** One task: what it records and prints *)





(** ** Report writer: completeness, ties, overwriting *)

Lemma filter_perm {X} (f : X → bool) (l l' : list X) :
  l ≡ₚ l' → List.filter f l ≡ₚ List.filter f l'.
Proof.
  induction 1 as [|x l l' _ IH|x y l|l l' l'' _ IH1 _ IH2]; cbn.
  - done.
  - destruct (f x); [by constructor|done].
  - destruct (f x), (f y); try done. apply Permutation_swap.
  - by etrans.
Qed.

(** X6. The sort loses and doubles nothing: the report holds exactly the
    items of the counter whose count is above 2, each as often as the
    counter holds it; an item is in the report if and only if it is in the
    counter with a count above 2. *)
Theorem report_lists_every_frequent_address (c : Counter) :
  report_entries c ≡ₚ List.filter (λ e, 2 <? e.2) c ∧
  ∀ ip n, (ip, n) ∈ report_entries c ↔ (ip, n) ∈ c ∧ 2 < n.
Proof.
  assert (report_entries c ≡ₚ List.filter (λ e, 2 <? e.2) c) as Hperm.
  { unfold report_entries. apply filter_perm, sorted_desc_perm. }
  split; [done|]. intros ip n. rewrite Hperm.
  rewrite list_elem_of_In, List.filter_In, <- list_elem_of_In. cbn.
  by rewrite Z.ltb_lt.
Qed.

Lemma filter_insert_desc (n : Z) (x : string * Z) (l : list (string * Z)) :
  List.filter (λ e, e.2 =? n) (insert_desc x l) = List.filter (λ e, e.2 =? n) (x :: l).
Proof.
  induction l as [|y l IH]; [done|].
  cbn [insert_desc]. destruct (Z.ltb_spec x.2 y.2) as [Hlt|Hge]; [|done].
  cbn [List.filter] in *. rewrite IH.
  destruct (Z.eqb_spec x.2 n), (Z.eqb_spec y.2 n); try done. lia.
Qed.

Lemma filter_sorted_desc (n : Z) (l : list (string * Z)) :
  List.filter (λ e, e.2 =? n) (sorted_desc l) = List.filter (λ e, e.2 =? n) l.
Proof.
  induction l as [|x l IH]; [done|].
  cbn [sorted_desc]. rewrite filter_insert_desc. cbn [List.filter]. by rewrite IH.
Qed.

Lemma filter_filter_above (n : Z) (l : list (string * Z)) :
  2 < n →
  List.filter (λ e, e.2 =? n) (List.filter (λ e, 2 <? e.2) l) =
    List.filter (λ e, e.2 =? n) l.
Proof.
  intros Hn. induction l as [|x l IH]; [done|].
  cbn [List.filter]. destruct (Z.ltb_spec 2 x.2) as [Hx|Hx]; cbn [List.filter].
  - by rewrite IH.
  - rewrite IH. by destruct (Z.eqb_spec x.2 n); [lia|].
Qed.

(** X7. Ties keep the order of the counter: the entries of the report that
    share a count [n] stand in the order in which their addresses were
    first counted. *)
Theorem report_ties_keep_insertion_order (c : Counter) (n : Z) :
  2 < n →
  List.filter (λ e, e.2 =? n) (report_entries c) = List.filter (λ e, e.2 =? n) c.
Proof.
  intros Hn. unfold report_entries.
  by rewrite filter_filter_above, filter_sorted_desc.
Qed.

Lemma report_ties_keep_insertion_order_witness :
  List.filter (λ e, e.2 =? 3) (report_entries tied_counter) =
    List.filter (λ e, e.2 =? 3) tied_counter.
Proof. apply (report_ties_keep_insertion_order tied_counter 3). lia. Defined.

(** X8. Writing the report overwrites and does not append: a second call
    with the same counter and path leaves every file as the first call
    left it, and no call touches a file other than the output path. *)
Theorem write_sorted_output_overwrites (os : os_env) (c : Counter)
        (path : string) (w : world) :
  (∀ p, files (write_sorted_output os c path (write_sorted_output os c path w)) p =
        files (write_sorted_output os c path w) p) ∧
  (∀ p, p ≠ path → files (write_sorted_output os c path w) p = files w p).
Proof.
  unfold write_sorted_output. destruct (open_w os path) as [e|]; cbn; [done|].
  split; intros p.
  - by destruct (String.eqb p path).
  - intros Hne. by destruct (String.eqb_spec p path).
Qed.

(** ** Output directory *)

Lemma dir_prefix_slash_free (name : string) :
  Forall (λ c, c ≠ slash) (list_ascii_of_string name) → dir_prefix name = None.
Proof.
  induction name as [|a name IH]; cbn; intros H; [done|].
  apply Forall_cons in H as [Ha Hname]. rewrite (IH Hname).
  by destruct (Ascii.eqb_spec a slash).
Qed.

Lemma dir_prefix_app (s name : string) :
  Forall (λ c, c ≠ slash) (list_ascii_of_string name) →
  dir_prefix (s +:+ String slash name) = Some (s +:+ String slash EmptyString).
Proof.
  intros Hname. induction s as [|a s IH].
  - change (dir_prefix (String slash name) = Some (String slash EmptyString)).
    cbn. by rewrite (dir_prefix_slash_free name Hname).
  - change (String a s +:+ String slash name) with (String a (s +:+ String slash name)).
    cbn [dir_prefix]. by rewrite IH.
Qed.

Lemma rstrip_slash_end (s : string) (c : ascii) :
  c ≠ slash →
  rstrip_slash (s +:+ String c (String slash EmptyString)) = s +:+ String c EmptyString.
Proof.
  intros Hc. induction s as [|a s IH].
  - change (rstrip_slash (String c (String slash EmptyString)) = String c EmptyString).
    cbn. by destruct (Ascii.eqb_spec c slash).
  - change (String a s +:+ String c (String slash EmptyString))
      with (String a (s +:+ String c (String slash EmptyString))).
    cbn [rstrip_slash]. rewrite IH. by destruct s.
Qed.

(** X9. For an output path without a slash (a bare file name) no directory
    is looked up or created, so this step cannot fail. *)
Theorem bare_file_name_needs_no_directory (os : os_env) (file_path : string) :
  Forall (λ c, c ≠ slash) (list_ascii_of_string file_path) →
  dirname file_path = EmptyString ∧ ensure_directory_exists os file_path = None.
Proof.
  intros H. unfold ensure_directory_exists, dirname.
  by rewrite (dir_prefix_slash_free file_path H).
Qed.

Lemma bare_file_name_needs_no_directory_witness :
  dirname "report.txt" = EmptyString ∧
  ensure_directory_exists (sample_os [] (Some permission_denied) None) "report.txt" = None.
Proof.
  apply (bare_file_name_needs_no_directory _ "report.txt").
  cbn. repeat constructor; discriminate.
Defined.

(** X10. For an output path [dir/name] (the directory not ending in a
    slash, the name without one) the directory handled is [dir]:
    [os.makedirs(dir)] is called, and its failure escapes, exactly when
    [dir] does not exist yet. *)
Theorem parent_directory_is_created (os : os_env) (d : string) (c : ascii)
        (name : string) :
  c ≠ slash →
  Forall (λ c, c ≠ slash) (list_ascii_of_string name) →
  dirname ((d +:+ String c EmptyString) +:+ String slash name) =
    d +:+ String c EmptyString ∧
  ensure_directory_exists os ((d +:+ String c EmptyString) +:+ String slash name) =
    if path_exists os (d +:+ String c EmptyString) then None
    else makedirs os (d +:+ String c EmptyString).
Proof.
  intros Hc Hname.
  assert (dirname ((d +:+ String c EmptyString) +:+ String slash name) =
            d +:+ String c EmptyString) as Hdir.
  { unfold dirname. rewrite (dir_prefix_app _ name Hname). cbn [default]. unfold id.
    rewrite string_app_assoc.
    change (String c EmptyString +:+ String slash EmptyString)
      with (String c (String slash EmptyString)).
    rewrite (rstrip_slash_end d c Hc). by destruct d. }
  split; [done|]. unfold ensure_directory_exists. rewrite Hdir.
  destruct d; cbn; by destruct (path_exists os _).
Qed.

Lemma parent_directory_is_created_witness :
  dirname (("out/2024" +:+ String "b" EmptyString) +:+ String slash "report.txt") =
    "out/2024" +:+ String "b" EmptyString ∧
  ensure_directory_exists (sample_os [] (Some permission_denied) None)
      (("out/2024" +:+ String "b" EmptyString) +:+ String slash "report.txt") =
    if path_exists (sample_os [] (Some permission_denied) None)
                   ("out/2024" +:+ String "b" EmptyString)
    then None
    else makedirs (sample_os [] (Some permission_denied) None)
                  ("out/2024" +:+ String "b" EmptyString).
Proof.
  apply (parent_directory_is_created _ "out/2024" "b" "report.txt").
  - discriminate.
  - cbn. repeat constructor; discriminate.
Defined.

(** ** Worker pool: the lock, the console, the end of a run *)

Lemma concat_update {X Y} (f : X → list Y) (ws : list X) (i : nat) (w w' : X) :
  ws !! i = Some w →
  concat (map f (<[i:=w']> ws)) ++ f w ≡ₚ concat (map f ws) ++ f w'.
Proof.
  revert i; induction ws as [|z ws IH]; intros [|i] Hi; try done.
  - injection Hi as ->. cbn. solve_Permutation.
  - simpl in Hi |- *. specialize (IH i Hi).
    rewrite <- !app_assoc, IH. done.
Qed.

Lemma concat_update_same {X Y} (f : X → list Y) (ws : list X) (i : nat) (w w' : X) :
  ws !! i = Some w → f w' = f w →
  concat (map f (<[i:=w']> ws)) = concat (map f ws).
Proof.
  revert i; induction ws as [|z ws IH]; intros [|i] Hi Hw; try done.
  - injection Hi as ->. cbn. by rewrite Hw.
  - simpl in Hi |- *. by rewrite (IH i Hi Hw).
Qed.

Lemma unlocked_not_critical (ws : list pc) (j : nat) (w : pc) :
  critical_count ws = 0%nat → ws !! j = Some w → in_critical w = false.
Proof.
  intros Hc Hj.
  pose proof (sum_zero_lookup (λ w, if in_critical w then 1 else 0)%nat ws j w Hc Hj)
    as H.
  cbn beta in H. by destruct (in_critical w).
Qed.

Lemma other_not_critical (ws : list pc) (l : bool) (i j : nat) (w w' : pc) :
  critical_count ws = (if l then 1 else 0)%nat →
  ws !! i = Some w → in_critical w = true →
  i ≠ j → ws !! j = Some w' → in_critical w' = false.
Proof.
  intros Hc Hi Hw Hne Hj.
  apply (critical_unique ws i j w w'); [|done..|by intros ->|done].
  rewrite Hc. destruct l; lia.
Qed.

Lemma init_pool_inv_out (dns : nat → resolver) (workers : nat) (urls : list string)
      (out : list string) :
  pool_inv dns (λ ip, Z.of_nat (owed dns ip (init_pool workers urls [] out)))
           (init_pool workers urls [] out).
Proof.
  split; cbn.
  - done.
  - unfold critical_count. by rewrite replicate_idle_sum.
  - by apply Forall_replicate.
  - apply NoDup_nil_2.
  - constructor.
Qed.

Lemma init_console_inv (dns : nat → resolver) (workers : nat) (urls : list string)
      (c : Counter) (out : list string) :
  console_inv dns out (map (block_of dns) (number urls)) (init_pool workers urls c out).
Proof.
  exists []. cbn. split; [by rewrite app_nil_r|]. split.
  - intros i w Hi Hw. apply lookup_replicate in Hi as [-> _]. done.
  - assert (concat (map (uncommitted dns) (replicate workers Idle)) = []) as ->.
    { induction workers as [|n IH]; [done|]. cbn. exact IH. }
    by rewrite app_nil_r.
Qed.

Lemma concat_blocks_snoc (done : list (string * list string)) (d : string)
      (recs : list string) :
  concat (map block_lines (done ++ [(d, recs)])) =
    concat (map block_lines done) ++ map (log_line d) recs.
Proof. rewrite map_app, concat_app. cbn. by rewrite app_nil_r. Qed.

(** Every step keeps the blocks of the console whole. *)
Lemma step_worker_console (dns : nat → resolver) (total : string → Z)
      (out0 : list string) (tasks : list (string * list string))
      (i : nat) (s s' : pool) :
  pool_inv dns total s → console_inv dns out0 tasks s →
  step_worker dns i s = Some s' → console_inv dns out0 tasks s'.
Proof.
  intros [_ Hlock _ _ _] (done & Hunl & Hcrit & Hperm) Hstep.
  unfold step_worker, set_worker in Hstep.
  destruct (p_workers s !! i) as [w|] eqn:Hw; [|done].
  destruct s as [q ws l c o]. unfold console_inv.
  cbn [p_queue p_workers p_locked p_counter p_console] in *.
  destruct w as [|tid url|d recs|d todo|d ip v todo|d ip todo].
  - destruct q as [|[tid url] q]; [done|]. injection Hstep as <-.
    exists done. cbn [p_queue p_workers p_locked p_counter p_console].
    split; [done|]. split.
    + intros j w0 Hj Hc. apply list_lookup_insert_Some in Hj as [(-> & <- & _)|[Hne Hj]].
      * done.
      * by apply (Hcrit j).
    + pose proof (concat_update (uncommitted dns) ws i Idle (Resolving tid url) Hw) as Hu.
      cbn [uncommitted] in Hu. rewrite app_nil_r in Hu. rewrite Hu, <- Hperm.
      cbn [map]. solve_Permutation.
  - destruct (result_of dns tid url) as [|b recs] eqn:Hres; injection Hstep as <-.
    + exists (done ++ [(clean_url url, [])]).
      cbn [p_queue p_workers p_locked p_counter p_console].
      rewrite concat_blocks_snoc. cbn [map]. rewrite app_nil_r.
      split; [done|]. split.
      * intros j w0 Hj Hc.
        apply list_lookup_insert_Some in Hj as [(-> & <- & _)|[Hne Hj]]; [done|].
        by apply (Hcrit j).
      * pose proof (concat_update (uncommitted dns) ws i (Resolving tid url) Idle Hw) as Hu.
        cbn [uncommitted] in Hu. unfold block_of in Hu. cbn [fst snd] in Hu.
        rewrite Hres, app_nil_r in Hu. rewrite <- Hperm, <- Hu. solve_Permutation.
    + exists done. cbn [p_queue p_workers p_locked p_counter p_console].
      split; [done|]. split.
      * intros j w0 Hj Hc.
        apply list_lookup_insert_Some in Hj as [(-> & <- & _)|[Hne Hj]]; [done|].
        by apply (Hcrit j).
      * rewrite (concat_update_same (uncommitted dns) ws i (Resolving tid url)); [done..|].
        cbn. unfold block_of. cbn. by rewrite Hres.
  - destruct l; [done|]. injection Hstep as <-.
    exists (done ++ [(d, recs)]).
    cbn [p_queue p_workers p_locked p_counter p_console].
    rewrite concat_blocks_snoc. split; [done|]. split.
    + intros j w0 Hj Hc.
      apply list_lookup_insert_Some in Hj as [(-> & <- & _)|[Hne Hj]].
      * cbn [rest_lines]. rewrite (Hunl eq_refl). by rewrite app_assoc.
      * by rewrite (unlocked_not_critical ws j w0 Hlock Hj) in Hc.
    + pose proof (concat_update (uncommitted dns) ws i (Acquire d recs) (Loop d recs) Hw)
        as Hu.
      cbn [uncommitted] in Hu. rewrite app_nil_r in Hu.
      rewrite <- Hperm, <- Hu. solve_Permutation.
  - destruct todo as [|ip todo]; injection Hstep as <-.
    + exists done. cbn [p_queue p_workers p_locked p_counter p_console].
      split; [|split].
      * intros _. rewrite <- (Hcrit i (Loop d []) Hw eq_refl). cbn. by rewrite app_nil_r.
      * intros j w0 Hj Hc.
        apply list_lookup_insert_Some in Hj as [(-> & <- & _)|[Hne Hj]]; [done|].
        by rewrite (other_not_critical ws l i j (Loop d []) w0 Hlock Hw eq_refl Hne Hj) in Hc.
      * by rewrite (concat_update_same (uncommitted dns) ws i (Loop d [])).
    + exists done. cbn [p_queue p_workers p_locked p_counter p_console].
      split; [done|]. split.
      * intros j w0 Hj Hc.
        apply list_lookup_insert_Some in Hj as [(-> & <- & _)|[Hne Hj]].
        -- by apply (Hcrit j (Loop d (ip :: todo))).
        -- by apply (Hcrit j).
      * by rewrite (concat_update_same (uncommitted dns) ws i (Loop d (ip :: todo))).
  - injection Hstep as <-.
    exists done. cbn [p_queue p_workers p_locked p_counter p_console].
    split; [done|]. split.
    + intros j w0 Hj Hc.
      apply list_lookup_insert_Some in Hj as [(-> & <- & _)|[Hne Hj]].
      * by apply (Hcrit j (Incr d ip v todo)).
      * by apply (Hcrit j).
    + by rewrite (concat_update_same (uncommitted dns) ws i (Incr d ip v todo)).
  - injection Hstep as <-.
    exists done. cbn [p_queue p_workers p_locked p_counter p_console].
    split; [|split].
    + intros ->. by pose proof (unlocked_not_critical ws i _ Hlock Hw).
    + intros j w0 Hj Hc.
      apply list_lookup_insert_Some in Hj as [(-> & <- & _)|[Hne Hj]].
      * rewrite <- (Hcrit j (Emit d ip todo) Hw eq_refl). cbn. by rewrite <- app_assoc.
      * by rewrite (other_not_critical ws l i j (Emit d ip todo) w0 Hlock Hw eq_refl Hne Hj)
          in Hc.
    + by rewrite (concat_update_same (uncommitted dns) ws i (Emit d ip todo)).
Qed.

Lemma steps_console (dns : nat → resolver) (total : string → Z) (out0 : list string)
      (tasks : list (string * list string)) (s s' : pool) :
  pool_inv dns total s → console_inv dns out0 tasks s → steps dns s s' →
  console_inv dns out0 tasks s'.
Proof.
  intros Hinv Hcon Hsteps.
  induction Hsteps as [s|s1 s2 s3 [i Hstep] _ IH]; [done|].
  apply IH; [by eapply step_worker_inv|by eapply step_worker_console].
Qed.

Lemma finished_idle (dns : nat → resolver) (s : pool) (f : pc → list (string * list string)) :
  finished s = true → f Idle = [] →
  p_queue s = [] ∧ concat (map f (p_workers s)) = [] ∧ critical_count (p_workers s) = 0%nat.
Proof.
  unfold finished, critical_count. destruct (p_queue s); [|done].
  intros Hidle Hf. split; [done|].
  induction (p_workers s) as [|w ws IH]; [done|].
  cbn in Hidle. apply andb_prop in Hidle as [Hw Hws].
  destruct (IH Hws) as [IH1 IH2]. destruct w; try done.
  cbn. by rewrite Hf, IH1, IH2.
Qed.





(** X12. The lock is exclusive in every state a run can reach: it is held
    exactly when some worker is between acquire and release, no two
    workers are there at once, and a worker that has read a count and not
    yet written it back holds the count the counter has now. *)
Theorem lock_is_exclusive (dns : nat → resolver) (workers : nat)
        (urls : list string) (out : list string) (s : pool) :
  steps dns (init_pool workers urls [] out) s →
  (p_locked s = true ↔ ∃ i w, p_workers s !! i = Some w ∧ in_critical w = true) ∧
  (∀ i j wi wj, p_workers s !! i = Some wi → p_workers s !! j = Some wj →
                in_critical wi = true → in_critical wj = true → i = j) ∧
  Forall (reads_current (p_counter s)) (p_workers s).
Proof.
  intros Hsteps.
  pose proof (steps_inv dns _ _ _ (init_pool_inv_out dns workers urls out) Hsteps)
    as [_ Hlock Hread _ _].
  split; [|split; [|done]].
  - split.
    + intros Hl. rewrite Hl in Hlock.
      destruct (sum_pos_lookup (λ w, if in_critical w then 1 else 0)%nat (p_workers s))
        as (i & w & Hi & Hw); [unfold critical_count in Hlock; lia|].
      exists i, w. split; [done|]. cbn beta in Hw. destruct (in_critical w); [done|lia].
    + intros (i & w & Hi & Hw). destruct (p_locked s); [done|].
      by rewrite (unlocked_not_critical _ i w Hlock Hi) in Hw.
  - intros i j wi wj Hi Hj Hwi Hwj.
    destruct (decide (i = j)) as [|Hne]; [done|].
    by rewrite (other_not_critical _ _ i j wi wj Hlock Hi Hwi Hne Hj) in Hwj.
Qed.

Lemma lock_is_exclusive_witness :
  p_locked (run_schedule three_hosts [1; 0; 1; 0; 1; 0]%nat (init_pool 2 three_urls [] []))
    = true ↔
  ∃ i w, p_workers (run_schedule three_hosts [1; 0; 1; 0; 1; 0]%nat
                                 (init_pool 2 three_urls [] [])) !! i = Some w ∧
         in_critical w = true.
Proof.
  apply (lock_is_exclusive three_hosts 2 three_urls []
           (run_schedule three_hosts [1; 0; 1; 0; 1; 0]%nat (init_pool 2 three_urls [] []))).
  apply run_schedule_steps.
Defined.









Lemma process_urls_concurrently_finishes (dns : nat → resolver) (schedule : list nat)
      (urls : list string) (max_threads : Z) (out : list string) :
  1 ≤ Z.min max_threads (Z.of_nat (length urls)) →
  ∃ s, steps dns (init_pool (Z.to_nat (Z.min max_threads (Z.of_nat (length urls))))
                            urls [] out) s ∧
       finished s = true ∧
       process_urls_concurrently dns schedule urls max_threads [] out =
         Ok (p_counter s, p_console s).
Proof.
  intros Hsize. unfold process_urls_concurrently. rewrite executor_accepts by done.
  set (workers := Z.to_nat (Z.min max_threads (Z.of_nat (length urls)))).
  set (s0 := init_pool workers urls [] out).
  set (s1 := run_schedule dns schedule s0).
  assert (steps dns s0 s1) as H01 by apply run_schedule_steps.
  pose proof (steps_inv dns _ _ _ (init_pool_inv_out dns workers urls out) H01) as Hinv.
  destruct (drain_finishes dns _ (pool_weight dns s1) s1 Hinv) as [H12 Hfin]; [|lia|].
  { rewrite (steps_length dns _ _ H01). cbn. rewrite length_replicate.
    unfold workers. lia. }
  exists (drain dns (pool_weight dns s1) s1). split; [by etrans|done].
Qed.




Lemma drain_enough (dns : nat → resolver) (f1 f2 : nat) (s : pool) :
  (pool_weight dns s ≤ f1)%nat → (pool_weight dns s ≤ f2)%nat →
  drain dns f1 s = drain dns f2 s.
Proof.
  revert f2 s; induction f1 as [|f1 IH]; intros [|f2] s H1 H2; cbn [drain]; try done.
  - destruct (pick dns _ s) as [s1|] eqn:Hp; [|done].
    apply pick_sound in Hp as [i Hstep]. apply step_worker_weight in Hstep. lia.
  - destruct (pick dns _ s) as [s1|] eqn:Hp; [|done].
    apply pick_sound in Hp as [i Hstep]. apply step_worker_weight in Hstep. lia.
  - destruct (pick dns _ s) as [s1|] eqn:Hp; [|done].
    pose proof Hp as Hp'. apply pick_sound in Hp' as [i Hstep].
    apply step_worker_weight in Hstep. apply IH; lia.
Qed.

Lemma one_worker_step (dns : nat → resolver) (i : nat) (s s' : pool) :
  length (p_workers s) = 1%nat → step_worker dns i s = Some s' →
  pick dns (seq 0 (length (p_workers s))) s = Some s'.
Proof.
  intros Hlen Hstep. rewrite Hlen. cbn.
  assert (i = 0%nat) as ->.
  { unfold step_worker in Hstep.
    destruct (p_workers s !! i) as [w|] eqn:Hw; [|done].
    apply lookup_lt_Some in Hw. lia. }
  by rewrite Hstep.
Qed.

Lemma run_schedule_one_worker (dns : nat → resolver) (schedule : list nat)
      (fuel : nat) (s : pool) :
  length (p_workers s) = 1%nat → (pool_weight dns s ≤ fuel)%nat →
  drain dns fuel (run_schedule dns schedule s) = drain dns fuel s.
Proof.
  revert s; induction schedule as [|i rest IH]; intros s Hlen Hfuel; [done|].
  cbn [run_schedule].
  destruct (step_worker dns i s) as [s1|] eqn:Hstep; [|by apply IH].
  pose proof (step_worker_weight dns i s s1 Hstep) as Hw.
  rewrite IH; [|by rewrite (step_worker_length dns i s s1 Hstep)|lia].
  destruct fuel as [|fuel]; [lia|].
  rewrite (drain_step dns fuel s s1 (one_worker_step dns i s s1 Hlen Hstep)).
  apply drain_enough; lia.
Qed.

Lemma steps_weight (dns : nat → resolver) (s s' : pool) :
  steps dns s s' → (pool_weight dns s' ≤ pool_weight dns s)%nat.
Proof.
  induction 1 as [s|s1 s2 s3 [i Hstep] _ IH]; [done|].
  apply step_worker_weight in Hstep. lia.
Qed.

(** X16. With a thread count of 1 the scheduler has no say: whatever the
    schedule, the URLs are processed in the order of the input, each as
    [process_url] on its own, and counter and console come out as in that
    sequential run, items and lines in the same order. *)
Theorem one_thread_runs_in_input_order (dns : nat → resolver) (schedule : list nat)
        (url : string) (urls : list string) (c : Counter) (out : list string) :
  process_urls_concurrently dns schedule (url :: urls) 1 c out =
    Ok (run_sequentially dns (number (url :: urls)) (c, out)).
Proof.
  unfold process_urls_concurrently.
  rewrite executor_accepts by (cbn [length]; lia).
  replace (Z.to_nat (Z.min 1 (Z.of_nat (length (url :: urls))))) with 1%nat
    by (cbn [length]; lia).
  set (s0 := init_pool 1 (url :: urls) c out).
  assert (length (p_workers s0) = 1%nat) as Hlen by done.
  assert (pool_weight dns (run_schedule dns schedule s0) ≤ pool_weight dns s0)%nat as Hle.
  { apply steps_weight, run_schedule_steps. }
  rewrite (drain_enough dns _ (pool_weight dns s0)) by (done || lia).
  rewrite run_schedule_one_worker by done.
  unfold s0, init_pool. cbn [replicate].
  rewrite drain_one_worker by lia. cbn [p_counter p_console].
  by destruct run_sequentially.
Qed.

(** ** The program: how a run ends and what it touches *)

Lemma process_urls_concurrently_raises (dns : nat → resolver) (schedule : list nat)
      (urls : list string) (max_threads : Z) (c : Counter) (out : list string) :
  Z.min max_threads (Z.of_nat (length urls)) ≤ 0 →
  process_urls_concurrently dns schedule urls max_threads c out =
    Raise (ValueError "max_workers must be greater than 0").
Proof.
  intros H. unfold process_urls_concurrently. by rewrite (executor_refuses _ H).
Qed.



Lemma process_urls_concurrently_console (dns : nat → resolver) (schedule : list nat)
      (urls : list string) (max_threads : Z) (out : list string)
      (c' : Counter) (out' : list string) :
  process_urls_concurrently dns schedule urls max_threads [] out = Ok (c', out') →
  ∃ more, out' = out ++ more.
Proof.
  intros Hrun.
  destruct (Z.leb_spec (Z.min max_threads (Z.of_nat (length urls))) 0) as [Hle|Hgt].
  { by rewrite (process_urls_concurrently_raises _ _ _ _ _ _ Hle) in Hrun. }
  destruct (process_urls_concurrently_finishes dns schedule urls max_threads out)
    as (s & Hsteps & Hfin & Heq); [lia|].
  rewrite Heq in Hrun. injection Hrun as <- <-.
  pose proof (steps_inv dns _ _ _ (init_pool_inv_out dns _ urls out) Hsteps) as Hinv.
  pose proof (steps_console dns _ out _ _ _ (init_pool_inv_out dns _ urls out)
                (init_console_inv dns _ urls [] out) Hsteps)
    as (done & Hunl & _ & _).
  destruct (finished_idle dns s (uncommitted dns) Hfin eq_refl) as (_ & _ & Hcc).
  destruct Hinv as [_ Hlock _ _ _]. rewrite Hcc in Hlock.
  assert (p_locked s = false) as Hl by (by destruct (p_locked s)).
  eexists. exact (Hunl Hl).
Qed.

(** X18. A run changes no file but the output file, however it ends, and
    erases nothing from the console: what was printed before stays in
    front of what the run prints. *)
Theorem main_touches_only_the_output (os : os_env) (dns : nat → resolver)
        (schedule : list nat) (a : args) (w : world) :
  (∀ p, p ≠ arg_output a → files (main os dns schedule a w).2 p = files w p) ∧
  ∃ more, stdout (main os dns schedule a w).2 = stdout w ++ more.
Proof.
  unfold main.
  destruct (read_urls os (arg_file a)) as [e|urls].
  { cbn. split; [done|]. by exists ["读取文件失败: " +:+ exn_text e]. }
  destruct (ensure_directory_exists os (arg_output a)) as [e|].
  { cbn. split; [done|]. exists []. by rewrite app_nil_r. }
  destruct (process_urls_concurrently dns schedule urls (arg_threads a) [] (stdout w))
    as [[c' out']|e] eqn:Hrun.
  2: { cbn. split; [done|]. exists []. by rewrite app_nil_r. }
  destruct (process_urls_concurrently_console _ _ _ _ _ _ _ Hrun) as [more ->].
  cbn [fst snd]. unfold write_sorted_output.
  destruct (open_w os (arg_output a)) as [e|]; cbn.
  - split; [done|].
    exists (more ++ ["写入文件失败: " +:+ exn_text e] ++ completion_messages os a).
    unfold completion_messages. by rewrite <- !app_assoc.
  - split.
    + intros p Hp. by destruct (String.eqb_spec p (arg_output a)).
    + exists (more ++ completion_messages os a).
      unfold completion_messages. by rewrite <- !app_assoc.
Qed.




